(** * serverless-latest-layer-version: the plugin of [src/index.js]

    A shallow embedding of the plugin class [ServerlessPlugin] and the
    properties of its specification.

    - JavaScript values are the inductive [value]; arrays live in a shared
      [heap] and are referred to by identity, so that two entries of
      [layersList] holding the same array alias the same storage.
    - [extractLayerName] is the method of that name; the regular expression
      [reg] is the matcher [reg_exec].
    - [processLayers] is an [async] function: it is the coroutine
      [processLayers_start] (the body up to the first [await]) and
      [processLayers_resume] (from one [await] to the next, or to the end).
    - [update] is the synchronous part of the method [update]: the grouping
      loop and the launch of one [processLayers] per entry.  What happens
      after, under [Promise.all], is the step function [deliver]: the answer
      to the request of one pending [processLayers] arrives and that
      coroutine runs to its next [await].  Any interleaving of the pending
      coroutines is a run. *)

From Stdlib Require Import Ascii String ZArith Lia.
From stdpp Require Import base option list strings sorting.

(** ** Values *)

(** Numbers: the program only tests numbers for truthiness and never
    computes with those found in the configuration, so [VNum] carries an
    integer ([0] is falsy, every other one truthy) and [VNaN] is apart. *)
Inductive value :=
  | VUndefined
  | VNull
  | VBool (b : bool)
  | VNum (z : Z)
  | VNaN
  | VStr (s : string)
  | VArr (a : nat)
  | VObj (o : nat).

#[global] Instance value_eq_dec : EqDecision value.
Proof. solve_decision. Defined.

(** [ToBoolean]: what [!layer], [while (marker)] test. *)
Definition truthy (v : value) : bool :=
  match v with
  | VUndefined | VNull | VNaN => false
  | VBool b => b
  | VNum z => negb (z =? 0)%Z
  | VStr s => negb (String.eqb s "")
  | VArr _ | VObj _ => true
  end.

(** [typeof v === 'string'] *)
Definition is_string (v : value) : bool :=
  match v with VStr _ => true | _ => false end.

(** [Array.isArray] *)
Definition isArray (v : value) : bool :=
  match v with VArr _ => true | _ => false end.

(** [===] *)
Definition strict_eq (x y : value) : bool :=
  match x, y with
  | VUndefined, VUndefined => true
  | VNull, VNull => true
  | VBool a, VBool b => Bool.eqb a b
  | VNum a, VNum b => (a =? b)%Z
  | VStr a, VStr b => String.eqb a b
  | VArr a, VArr b => Nat.eqb a b
  | VObj a, VObj b => Nat.eqb a b
  | _, _ => false
  end.

(** ** [parseInt] *)

Definition is_space (c : ascii) : bool :=
  let n := Ascii.nat_of_ascii c in
  (n =? 32)%nat || ((9 <=? n)%nat && (n <=? 13)%nat).

Definition digit_of (c : ascii) : option Z :=
  let n := Ascii.nat_of_ascii c in
  if ((48 <=? n)%nat && (n <=? 57)%nat)%bool then Some (Z.of_nat (n - 48)) else None.

Fixpoint skip_spaces (s : string) : string :=
  match s with
  | String c s' => if is_space c then skip_spaces s' else s
  | EmptyString => s
  end.

(** The digits at the head of [s], most significant first, folded into
    [acc]; [None] when [s] starts with no digit and [seen] is [false]. *)
Fixpoint digits (seen : bool) (acc : Z) (s : string) : option Z :=
  match s with
  | String c s' =>
      match digit_of c with
      | Some d => digits true (acc * 10 + d)%Z s'
      | None => if seen then Some acc else None
      end
  | EmptyString => if seen then Some acc else None
  end.

Definition parse_decimal (s : string) : value :=
  match skip_spaces s with
  | String "-"%char s' => match digits false 0%Z s' with Some z => VNum (- z) | None => VNaN end
  | String "+"%char s' => match digits false 0%Z s' with Some z => VNum z | None => VNaN end
  | s' => match digits false 0%Z s' with Some z => VNum z | None => VNaN end
  end.

(** [parseInt(v)] with no radix, on decimal input: leading white space, a
    sign, then digits.  A value that is no string is first converted to one;
    [undefined], [null], booleans and plain objects have no leading digit. *)
Definition parseInt (v : value) : value :=
  match v with
  | VStr s => parse_decimal s
  | VNum z => VNum z
  | _ => VNaN
  end.

(** ** The regular expression [reg] *)

(** The named groups of [reg]. *)
Record groups := Groups {
  g_region : string;
  g_accountId : string;
  g_layerName : string
}.

#[global] Instance groups_eq_dec : EqDecision groups.
Proof. solve_decision. Defined.

Definition reg_source : string :=
  "/^arn:aws:lambda:(?<region>[^:]+):(?<accountId>[^:]+):layer:(?<layerName>[^:]+):serverless-latest-layer-version$/".

Definition colon : ascii := ":"%char.

(** A literal of the pattern, matched at the head of [s]: the rest. *)
Fixpoint literal (p s : string) : option string :=
  match p with
  | EmptyString => Some s
  | String c p' =>
      match s with
      | String d s' => if Ascii.eqb c d then literal p' s' else None
      | EmptyString => None
      end
  end.

(** [[^:]*], greedy: the longest head of [s] without a colon, and the rest. *)
Fixpoint not_colon_star (s : string) : string * string :=
  match s with
  | String c s' =>
      if Ascii.eqb c colon then (EmptyString, s)
      else let '(m, r) := not_colon_star s' in (String c m, r)
  | EmptyString => (EmptyString, EmptyString)
  end.

(** [[^:]+].  In [reg] every such group is followed by a literal colon, so
    the greedy match is the only one and the matcher never backtracks. *)
Definition not_colon_plus (s : string) : option (string * string) :=
  match not_colon_star s with
  | (EmptyString, _) => None
  | (m, r) => Some (m, r)
  end.

(** [reg.exec(s)]: [^] and [$] anchor the match to the whole string ([reg]
    has no flag). *)
Definition reg_exec (s : string) : option groups :=
  s1 ← literal "arn:aws:lambda:" s;
  '(region, s2) ← not_colon_plus s1;
  s3 ← literal ":" s2;
  '(accountId, s4) ← not_colon_plus s3;
  s5 ← literal ":layer:" s4;
  '(layerName, s6) ← not_colon_plus s5;
  s7 ← literal ":serverless-latest-layer-version" s6;
  match s7 with
  | EmptyString => Some (Groups region accountId layerName)
  | String _ _ => None
  end.

(** ** The provider's answers *)

Record LayerVersion := {
  Version : Z;
  LayerVersionArn : string
}.

Record Result := {
  LayerVersions : list LayerVersion;
  NextMarker : value
}.

Inductive error :=
  | TypeError (msg : string)
  | Error (msg : string)
  | ProviderError (msg : string).

(** How the promise of [provider.request] settles. *)
Inductive response :=
  | Resolve (result : Result)
  | Reject (e : error).

(** ** The debug sink *)

Inductive dbgarg :=
  | DValue (v : value)
  | DResult (r : Result)
  | DVersion (v : LayerVersion).

(** One call of [serverless.cli.debug]: the arguments handed to
    [util.format]. *)
Record dbgline := Dbg {
  dbg_format : string;
  dbg_args : list dbgarg
}.

Definition TAG : string := "[serverless-latest-layer-version]".

(** [debug(first, ...rest)] where [first] is a string, as at every call. *)
Definition debug (first : string) (rest : list dbgarg) : dbgline :=
  Dbg (TAG +:+ " " +:+ first) rest.

(** ** [extractLayerName] *)

(** [layerVersion === parseInt(layerVersion)] *)
Definition explicit_version (layerVersion : value) : bool :=
  strict_eq layerVersion (parseInt layerVersion).

(** The result is [None] for [undefined]; the second component is what the
    call wrote to the debug sink.  [ambient] is
    [this.serverless.service.provider.region].  [reg] has no group
    [layerVersion], so destructuring it from [tokens.groups] gives
    [undefined]. *)
Definition extractLayerName (ambient : string) (layer : value)
  : option string * list dbgline :=
  if negb (truthy layer) then (None, [])
  else
    match layer with
    | VStr s =>
        match reg_exec s with
        | None =>
            (None,
             [debug ("Skipping layer " +:+ s +:+ " as it doesn't match regexp: " +:+ reg_source) []])
        | Some tokens =>
            let region := g_region tokens in
            let accountId := g_accountId tokens in
            let layerName := g_layerName tokens in
            let layerVersion := VUndefined in
            if negb (strict_eq layerVersion (VStr "?")) && explicit_version layerVersion then
              (None,
               [debug ("Skipping layer " +:+ s +:+ " as it has a clearly specified layer version.") []])
            else
              let region := if String.eqb region "?" then ambient else region in
              (Some (if String.eqb accountId "?" then layerName
                     else "arn:aws:lambda:" +:+ region +:+ ":" +:+ accountId +:+ ":layer:" +:+ layerName),
               [])
        end
    | _ => (None, [debug "Skipping layer as its not a string:" [DValue layer]])
    end.

(** ** The heap of arrays and the listeners *)

(** The closure [(newLayer) => { layers[index] = newLayer; }]: the array it
    captured, by identity, and the index. *)
Record listener := Listener {
  layers : nat;
  index : nat
}.

#[global] Instance listener_eq_dec : EqDecision listener.
Proof. solve_decision. Defined.

(** [arr[index] = v]: in range the element is replaced; past the end the
    array grows (the gap reads as [undefined]). *)
Definition array_set (index : nat) (v : value) (arr : list value) : list value :=
  if decide (index < length arr) then <[index := v]> arr
  else arr ++ replicate (index - length arr) VUndefined ++ [v].

(** The elements of the array [a].  Arrays are dense, as the loading of
    the configuration makes them: [forEach] visits every index. *)
Definition array (h : list (list value)) (a : nat) : list value :=
  default [] (h !! a).

(** [listener(newLayer)] *)
Definition invoke (h : list (list value)) (w : listener * value) : list (list value) :=
  alter (array_set (index w.1) w.2) (layers w.1) h.

(** What is stored at the place a listener writes to. *)
Definition read (h : list (list value)) (l : listener) : option value :=
  h !! layers l ≫= (.!! index l).

(** ** [processLayers] *)

Inductive status :=
  | Awaiting
  | Fulfilled
  | Rejected (e : error).

(** One activation of [processLayers]: its parameters, its locals and the
    state of the promise it returned. *)
Record task := Task {
  layerName : string;
  listeners : list listener;
  latestVersion : option LayerVersion;
  marker : value;
  settled : status
}.

(** What a piece of [processLayers] does to the world: the calls of
    [provider.request] (LayerName, Marker), the debug lines, the listeners
    called with their argument. *)
Record effects := Effects {
  issued : list (string * value);
  logged : list dbgline;
  written : list (listener * value)
}.

(** The body of [for (const version of result.LayerVersions)]. *)
Definition pick (latestVersion : option LayerVersion) (version : LayerVersion)
  : option LayerVersion :=
  match latestVersion with
  | Some latest => if (Version latest >? Version version)%Z then Some latest else Some version
  | None => Some version
  end.

Definition no_version (layerName : string) : error :=
  Error ("Lambda layer " +:+ layerName +:+ " has no version available.").

(** From the call to the first [await]. *)
Definition processLayers_start (layerName : string) (listeners : list listener)
  : task * effects :=
  (Task layerName listeners None VUndefined Awaiting,
   Effects [(layerName, VUndefined)]
           [debug "Fetching versions for" [DValue (VStr layerName)]]
           []).

(** From the settling of the awaited request to the next [await], or to the
    end of the function. *)
Definition processLayers_resume (t : task) (r : response) : task * effects :=
  match r with
  | Reject e =>
      (Task (layerName t) (listeners t) (latestVersion t) (marker t) (Rejected e),
       Effects [] [] [])
  | Resolve result =>
      let note := debug "Result" [DResult result] in
      let latestVersion := fold_left pick (LayerVersions result) (latestVersion t) in
      let marker := NextMarker result in
      if truthy marker then
        (Task (layerName t) (listeners t) latestVersion marker Awaiting,
         Effects [(layerName t, marker)] [note] [])
      else
        match latestVersion with
        | None =>
            (Task (layerName t) (listeners t) latestVersion marker
                  (Rejected (no_version (layerName t))),
             Effects [] [note] [])
        | Some latest =>
            (Task (layerName t) (listeners t) latestVersion marker Fulfilled,
             Effects []
                     [note; debug ("Latest version for " +:+ layerName t +:+ " → ") [DVersion latest]]
                     (map (λ l, (l, VStr (LayerVersionArn latest))) (listeners t)))
        end
  end.

(** One [processLayers] alone, fed the answers to its requests in turn;
    answers that come after it has settled are not consumed. *)
Fixpoint feed (t : task) (answers : list response) : task * effects :=
  match answers with
  | [] => (t, Effects [] [] [])
  | r :: rest =>
      match settled t with
      | Awaiting =>
          let '(t1, e1) := processLayers_resume t r in
          let '(t2, e2) := feed t1 rest in
          (t2, Effects (issued e1 ++ issued e2) (logged e1 ++ logged e2)
                       (written e1 ++ written e2))
      | _ => (t, Effects [] [] [])
      end
  end.

(** ** [update]: the grouping loop *)

(** What [{}] inherits from [Object.prototype].  Each of these reads as a
    function (or, for [__proto__], as the prototype object): a truthy value
    without a method [push]. *)
Definition Object_prototype : list string :=
  [ "constructor"; "__defineGetter__"; "__defineSetter__"; "hasOwnProperty";
    "__lookupGetter__"; "__lookupSetter__"; "isPrototypeOf";
    "propertyIsEnumerable"; "toString"; "valueOf"; "__proto__";
    "toLocaleString" ].

Inductive property :=
  | Own (listeners : list listener)
  | Inherited
  | Absent.

(** The own properties of [layerAssociation], in creation order. *)
Fixpoint own (o : list (string * list listener)) (k : string) : option (list listener) :=
  match o with
  | [] => None
  | (k', ls) :: o' => if String.eqb k' k then Some ls else own o' k
  end.

(** [layerAssociation[layerName]] *)
Definition get (o : list (string * list listener)) (k : string) : property :=
  match own o k with
  | Some ls => Own ls
  | None => if bool_decide (k ∈ Object_prototype) then Inherited else Absent
  end.

(** [listeners.push(listener)] on the array stored under [k]. *)
Fixpoint push (o : list (string * list listener)) (k : string) (l : listener)
  : list (string * list listener) :=
  match o with
  | [] => []
  | (k', ls) :: o' => if String.eqb k' k then (k', ls ++ [l]) :: o' else (k', ls) :: push o' k l
  end.

Record grouping := Grouping {
  layerAssociation : list (string * list listener);
  notes : list dbgline
}.

(** [TypeError: listeners.push is not a function] *)
Definition thrown : error := TypeError "listeners.push is not a function".

(** The callback of [layers.forEach], for the array [a]. *)
Definition callback (ambient : string) (a : nat) (layer : value) (index : nat) (g : grouping)
  : grouping * option error :=
  let '(layerName, said) := extractLayerName ambient layer in
  let g := Grouping (layerAssociation g) (notes g ++ said) in
  match layerName with
  | None => (g, None)
  | Some layerName =>
      if negb (truthy (VStr layerName)) then (g, None)
      else
        let listener := Listener a index in
        match get (layerAssociation g) layerName with
        | Absent => (Grouping (layerAssociation g ++ [(layerName, [listener])]) (notes g), None)
        | Own _ => (Grouping (push (layerAssociation g) layerName listener) (notes g), None)
        | Inherited => (g, Some thrown)
        end
  end.

(** [layers.forEach(...)] from [index] on. *)
Fixpoint forEach (ambient : string) (a : nat) (index : nat) (elements : list value)
  (g : grouping) : grouping * option error :=
  match elements with
  | [] => (g, None)
  | layer :: rest =>
      match callback ambient a layer index g with
      | (g', None) => forEach ambient a (S index) rest g'
      | thrown => thrown
      end
  end.

(** [for (const layers of layersList)] *)
Fixpoint group (ambient : string) (h : list (list value)) (layersList : list value)
  (g : grouping) : grouping * option error :=
  match layersList with
  | [] => (g, None)
  | VArr a :: rest =>
      match forEach ambient a 0 (array h a) g with
      | (g', None) => group ambient h rest g'
      | thrown => thrown
      end
  | _ :: rest => group ambient h rest g
  end.

(** ** [Object.entries] *)

(** All of [s] read as a decimal numeral. *)
Fixpoint numeral (acc : N) (s : string) : option N :=
  match s with
  | EmptyString => Some acc
  | String c s' =>
      match digit_of c with
      | Some d => numeral (acc * 10 + Z.to_N d)%N s'
      | None => None
      end
  end.

(** An array index: a canonical numeral below [2^32 - 1]. *)
Definition array_index (k : string) : option N :=
  match k with
  | EmptyString => None
  | String "0"%char EmptyString => Some 0%N
  | String "0"%char _ => None
  | _ => n ← numeral 0 k; if (n <? 4294967295)%N then Some n else None
  end.

Definition index_le (x y : N * (string * list listener)) : Prop := (x.1 ≤ y.1)%N.

#[global] Instance index_le_dec : RelDecision index_le.
Proof. intros x y. unfold index_le. apply _. Defined.

(** Own keys that are array indices come first, in ascending order; the
    others follow in creation order. *)
Definition entries (o : list (string * list listener)) : list (string * list listener) :=
  (snd <$> merge_sort index_le
             (omap (λ e, n ← array_index e.1; Some (n, e)) o))
  ++ filter (λ e, array_index e.1 = None) o.

(** ** The state of a run *)

(** The promise returned by [update]. *)
Inductive outcome :=
  | Pending
  | Returned
  | Threw (e : error).

Record state := State {
  heap : list (list value);
  tasks : list task;
  requests : list (string * value);
  debugLog : list dbgline;
  writes : list (listener * value);
  promise : outcome
}.

Definition perform (e : effects) (σ : state) : state :=
  State (fold_left invoke (written e) (heap σ))
        (tasks σ)
        (requests σ ++ issued e)
        (debugLog σ ++ logged e)
        (writes σ ++ written e)
        (promise σ).

(** A [processLayers] at its first [await]. *)
Definition fresh (entry : string * list listener) : task :=
  Task entry.1 entry.2 None VUndefined Awaiting.

(** [.map(([layerName, listeners]) => this.processLayers(layerName, listeners))],
    one entry. *)
Definition launch (σ : state) (entry : string * list listener) : state :=
  let '(t, e) := processLayers_start entry.1 entry.2 in
  let σ' := perform e σ in
  State (heap σ') (tasks σ' ++ [t]) (requests σ') (debugLog σ') (writes σ') (promise σ').

Definition is_fulfilled (t : task) : bool :=
  match settled t with Fulfilled => true | _ => false end.

(** [Promise.all(...)]: fulfilled once every promise is. *)
Definition all_fulfilled (ts : list task) (p : outcome) : outcome :=
  match p with
  | Pending => if forallb is_fulfilled ts then Returned else Pending
  | _ => p
  end.

(** [Promise.all(...)]: rejected by the first rejection. *)
Definition first_rejection (e : error) (p : outcome) : outcome :=
  match p with
  | Pending => Threw e
  | _ => p
  end.

(** What the settling of one [processLayers] does to [await Promise.all(...)]. *)
Definition all (ts : list task) (last : status) (p : outcome) : outcome :=
  match last with
  | Rejected e => first_rejection e p
  | Fulfilled => all_fulfilled ts p
  | Awaiting => p
  end.

(** The method [update], up to [await]. *)
Definition update (ambient : string) (h : list (list value)) (layersList : list value)
  : state :=
  match group ambient h layersList (Grouping [] []) with
  | (g, Some e) => State h [] [] (notes g) [] (Threw e)
  | (g, None) =>
      let σ := fold_left launch (entries (layerAssociation g))
                 (State h [] [] (notes g) [] Pending) in
      State (heap σ) (tasks σ) (requests σ) (debugLog σ) (writes σ)
            (all_fulfilled (tasks σ) Pending)
  end.

(** The request of the [i]-th [processLayers] settles with [r]. *)
Definition deliver (i : nat) (r : response) (σ : state) : option state :=
  t ← tasks σ !! i;
  match settled t with
  | Awaiting =>
      let '(t', e) := processLayers_resume t r in
      let σ' := perform e σ in
      let ts := <[i := t']> (tasks σ') in
      Some (State (heap σ') ts (requests σ') (debugLog σ') (writes σ')
                  (all ts (settled t') (promise σ')))
  | _ => None
  end.

(** A run: requests settle one after the other, in any order. *)
Fixpoint run (tr : list (nat * response)) (σ : state) : option state :=
  match tr with
  | [] => Some σ
  | (i, r) :: tr' => σ' ← deliver i r σ; run tr' σ'
  end.

(** The answers the [i]-th [processLayers] got in a run. *)
Definition delivered (i : nat) (tr : list (nat * response)) : list response :=
  omap (λ x : nat * response, if decide (x.1 = i) then Some x.2 else None) tr.

(** No request is in flight. *)
Definition quiescent (σ : state) : Prop :=
  ∀ t, t ∈ tasks σ → settled t ≠ Awaiting.

(** ** Notions of the specification *)

(** A component of a reference: not empty, no colon. *)
Fixpoint colon_free (s : string) : bool :=
  match s with
  | EmptyString => true
  | String c s' => negb (Ascii.eqb c colon) && colon_free s'
  end.

Definition component (s : string) : Prop := s ≠ EmptyString ∧ colon_free s = true.

Definition sentinel : string := "serverless-latest-layer-version".

(** The strings of the fixed pattern, with their components. *)
Definition layer_reference (region accountId layerName : string) : string :=
  "arn:aws:lambda:" +:+ region +:+ ":" +:+ accountId +:+ ":layer:" +:+ layerName
    +:+ ":" +:+ sentinel.

(** The ResolutionTarget of a raw reference. *)
Definition target (ambient : string) (layer : value) : option string :=
  (extractLayerName ambient layer).1.

(** N pages, each with a continuation marker except the last. *)
Fixpoint paged (pages : list Result) : bool :=
  match pages with
  | [] => false
  | [last] => negb (truthy (NextMarker last))
  | page :: rest => truthy (NextMarker page) && paged rest
  end.

(** The records of all pages, in the order they are seen. *)
Definition records (pages : list Result) : list LayerVersion :=
  concat (LayerVersions <$> pages).

(** [processLayers(layerName, listeners)] against a provider that answers
    with [pages], in turn. *)
Definition resolve (layerName : string) (listeners : list listener) (pages : list Result)
  : task * effects :=
  let '(t0, e0) := processLayers_start layerName listeners in
  let '(t, e) := feed t0 (Resolve <$> pages) in
  (t, Effects (issued e0 ++ issued e) (logged e0 ++ logged e) (written e0 ++ written e)).

(** The reduction as the specification words it: a later record overrides
    the current best only when its versionNumber is strictly greater. *)
Definition first_seen_pick (best : option LayerVersion) (version : LayerVersion)
  : option LayerVersion :=
  match best with
  | Some b => if (Version version >? Version b)%Z then Some version else Some b
  | None => Some version
  end.

Definition first_seen_max (pages : list Result) : option LayerVersion :=
  fold_left first_seen_pick (records pages) None.

(** [r] is the last of the records of [vs] that carry the greatest
    version. *)
Definition last_max (r : LayerVersion) (vs : list LayerVersion) : Prop :=
  ∃ before after,
    vs = before ++ r :: after
    ∧ (∀ x, x ∈ before → (Version x ≤ Version r)%Z)
    ∧ (∀ x, x ∈ after → (Version x < Version r)%Z).

(** The last character of a string. *)
Fixpoint last_char (s : string) : option ascii :=
  match s with
  | EmptyString => None
  | String c EmptyString => Some c
  | String _ s' => last_char s'
  end.

(** The reference stored at the place [l], in an array of [layersList],
    is eligible and canonicalizes to the target [k]. *)
Definition refers (ambient : string) (h : list (list value)) (layersList : list value)
  (l : listener) (k : string) : Prop :=
  VArr (layers l) ∈ layersList ∧ ∃ v, read h l = Some v ∧ target ambient v = Some k.

(** The group of [k] in [o] holds the listener [l]. *)
Definition holds (o : list (string * list listener)) (k : string) (l : listener) : Prop :=
  ∃ ls, (k, ls) ∈ o ∧ l ∈ ls.

(** What the callback of [forEach] does to [layerAssociation] when it does
    not throw. *)
Definition add (o : list (string * list listener)) (k : string) (l : listener)
  : list (string * list listener) :=
  match own o k with
  | Some _ => push o k l
  | None => o ++ [(k, [l])]
  end.

(** ** The invariant of a run *)

(** What a settled [processLayers] has written: nothing unless it is
    fulfilled, and then the ARN of its latest version through each of its
    listeners, in order. *)
Definition block (t : task) : list (listener * value) :=
  match settled t, latestVersion t with
  | Fulfilled, Some v => map (λ l, (l, VStr (LayerVersionArn v))) (listeners t)
  | _, _ => []
  end.

(** What holds of every state of a run of [update ambient h0 layersList]. *)
Record invariant (ambient : string) (h0 : list (list value)) (layersList : list value)
  (σ : state) : Prop := {
  inv_names : NoDup (layerName <$> tasks σ);
  inv_refers : ∀ i t l, tasks σ !! i = Some t → l ∈ listeners t →
    refers ambient h0 layersList l (layerName t);
  inv_shape : ∀ l, is_Some (read (heap σ) l) ↔ is_Some (read h0 l);
  inv_fulfilled : ∀ i t, tasks σ !! i = Some t → settled t = Fulfilled →
    ∃ v, latestVersion t = Some v
         ∧ ∀ l, l ∈ listeners t → read (heap σ) l = Some (VStr (LayerVersionArn v));
  inv_untouched : ∀ l,
    (∀ i t, tasks σ !! i = Some t → settled t = Fulfilled → l ∉ listeners t) →
    read (heap σ) l = read h0 l;
  inv_writes : ∀ w, w ∈ writes σ →
    ∃ i t, tasks σ !! i = Some t ∧ settled t = Fulfilled ∧ w.1 ∈ listeners t;
  inv_block : ∀ i t, tasks σ !! i = Some t →
    filter (λ w, w.1 ∈ listeners t) (writes σ) = block t;
  inv_rejected : ∀ i t e, tasks σ !! i = Some t → settled t = Rejected e →
    ∃ e', promise σ = Threw e';
  inv_returned : promise σ = Returned →
    ∀ i t, tasks σ !! i = Some t → settled t = Fulfilled;
  inv_pending : promise σ = Pending → ∃ i t, tasks σ !! i = Some t ∧ settled t = Awaiting;
  inv_threw : ∀ e, promise σ = Threw e →
    tasks σ = [] ∨ ∃ i t, tasks σ !! i = Some t ∧ settled t = Rejected e;
  inv_requests : ∀ name,
    length (filter (λ q, q = (name, VUndefined)) (requests σ))
    = length (filter (λ n, n = name) (layerName <$> tasks σ));
  inv_request_names : ∀ q, q ∈ requests σ → q.1 ∈ layerName <$> tasks σ
}.

Arguments inv_names {_ _ _ _} _.
Arguments inv_refers {_ _ _ _} _.
Arguments inv_shape {_ _ _ _} _.
Arguments inv_fulfilled {_ _ _ _} _.
Arguments inv_untouched {_ _ _ _} _.
Arguments inv_writes {_ _ _ _} _.
Arguments inv_block {_ _ _ _} _.
Arguments inv_rejected {_ _ _ _} _.
Arguments inv_returned {_ _ _ _} _.
Arguments inv_pending {_ _ _ _} _.
Arguments inv_threw {_ _ _ _} _.
Arguments inv_requests {_ _ _ _} _.
Arguments inv_request_names {_ _ _ _} _.

(** ** Examples *)

Definition foo_reference : string :=
  "arn:aws:lambda:?:123:layer:foo:serverless-latest-layer-version".

Definition record (v : Z) (arn : string) : LayerVersion :=
  {| Version := v; LayerVersionArn := arn |}.

(** The pages [[{v:1},{v:5}]] then [[{v:3}]]. *)
Definition two_pages : list Result :=
  [ {| LayerVersions := [record 1 "A1"; record 5 "A5"]; NextMarker := VStr "next" |};
    {| LayerVersions := [record 3 "A3"]; NextMarker := VUndefined |} ].

(** One page with two records of the same version. *)
Definition tied_page : list Result :=
  [ {| LayerVersions := [record 5 "first"; record 5 "second"]; NextMarker := VUndefined |} ].

Definition bar_reference : string :=
  "arn:aws:lambda:eu-west-1:123:layer:bar:serverless-latest-layer-version".

(** One array with two references, of two layers, and a plain string. *)
Definition two_layers : list (list value) :=
  [[VStr foo_reference; VStr bar_reference; VStr "arn:aws:lambda:eu-west-1:123:layer:baz:7"]].

(** The request for [foo] is answered with two versions, then the one for
    [bar] with none. *)
Definition foo_then_bar : list (nat * response) :=
  [ (0, Resolve {| LayerVersions := [record 1 "A1"; record 2 "A2"]; NextMarker := VUndefined |});
    (1, Resolve {| LayerVersions := []; NextMarker := VUndefined |}) ].

Definition two_layers_after : state :=
  Eval vm_compute in
    default (update "us-east-1" two_layers [VArr 0])
            (run foo_then_bar (update "us-east-1" two_layers [VArr 0])).

Definition bar_task : task :=
  Task "arn:aws:lambda:eu-west-1:123:layer:bar" [Listener 0 1] None VUndefined Awaiting.

(** A layer of the local account that is named [constructor]. *)
Definition constructor_reference : string :=
  "arn:aws:lambda:us-east-1:?:layer:constructor:serverless-latest-layer-version".

(** Entries without an array, and an array without a reference. *)
Definition no_reference : list (list value) :=
  [[VStr "arn:aws:lambda:eu-west-1:123:layer:baz:7"; VNull; VNum 4]].

Definition no_reference_list : list value :=
  [VUndefined; VNull; VStr "layers"; VArr 0; VObj 1].

(** ** The configuration trees *)

(** What the host hands to the plugin: the functions of the service and the
    resources of the compiled template.  An array is a reference into the
    heap; an object has an identity and its own properties, each key once,
    in creation order. *)
#[warnings="-register-all"]
Inductive tree :=
  | TUndefined
  | TNull
  | TBool (b : bool)
  | TNum (z : Z)
  | TStr (s : string)
  | TArr (a : nat)
  | TObject (o : nat) (props : list (string * tree)).

(** The tree as a value of the program. *)
Definition to_value (t : tree) : value :=
  match t with
  | TUndefined => VUndefined
  | TNull => VNull
  | TBool b => VBool b
  | TNum z => VNum z
  | TStr s => VStr s
  | TArr a => VArr a
  | TObject o _ => VObj o
  end.

Definition nullish (t : tree) : bool :=
  match t with TUndefined | TNull => true | _ => false end.

(** The own property [k] of an object. *)
Fixpoint field (props : list (string * tree)) (k : string) : option tree :=
  match props with
  | [] => None
  | (k', t) :: rest => if String.eqb k' k then Some t else field rest k
  end.

(** [t.k], and the destructuring [{ k }] of [t], for the keys the plugin
    reads ([Type], [Properties], [Layers], [layers]): neither objects nor
    strings nor arrays inherit one of them.  [None]: a [TypeError], [t] is
    [undefined] or [null]. *)
Definition prop (t : tree) (k : string) : option tree :=
  match t with
  | TUndefined | TNull => None
  | TObject _ props => Some (default TUndefined (field props k))
  | _ => Some TUndefined
  end.

Definition key_le {A} (x y : N * A) : Prop := (x.1 ≤ y.1)%N.

#[global] Instance key_le_dec {A} : RelDecision (@key_le A).
Proof. intros x y. unfold key_le. apply _. Defined.

(** [Object.values(o)]: the values of the keys that are array indices, in
    ascending order, then the others in creation order. *)
Definition Object_values {A} (o : list (string * A)) : list A :=
  (snd <$> merge_sort key_le (omap (λ e, n ← array_index e.1; Some (n, e.2)) o))
  ++ (snd <$> filter (λ e, array_index e.1 = None) o).

(** ** [listSLSLayerAssociations] *)

(** [({ layers }) => layers] *)
Definition layers_of (f : tree) : option value :=
  to_value <$> prop f "layers".

(** [functions] is [this.serverless.service?.functions]: [None] when the
    service or its functions are [undefined] or [null], the mapping of the
    functions otherwise.  [None] as the result: a [TypeError]. *)
Definition listSLSLayerAssociations (functions : option (list (string * tree)))
  : option (list value) :=
  mapM layers_of (Object_values (default [] functions)).

(** ** [listCFNLayerAssociations] *)

Definition Lambda_Function : string := "AWS::Lambda::Function".

(** [.filter(({ Type }) => Type === 'AWS::Lambda::Function')] *)
Fixpoint filter_functions (resources : list tree) : option (list tree) :=
  match resources with
  | [] => Some []
  | resource :: rest =>
      type ← prop resource "Type";
      kept ← filter_functions rest;
      Some (if strict_eq (to_value type) (VStr Lambda_Function)
            then resource :: kept else kept)
  end.

(** [resource => resource.Properties?.Layers] *)
Definition Layers_of (resource : tree) : option value :=
  properties ← prop resource "Properties";
  if nullish properties then Some VUndefined
  else to_value <$> prop properties "Layers".

(** [Resources] is [compiledTemplate.Resources]. *)
Definition listCFNLayerAssociations (Resources : list (string * tree))
  : option (list value) :=
  functions ← filter_functions (Object_values Resources);
  mapM Layers_of functions.

(** ** The hooks *)


(** [updateCFNLayerVersion], likewise. *)
Definition updateCFNLayerVersion (ambient : string) (h : list (list value))
  (Resources : list (string * tree)) : option state :=
  update ambient h <$> listCFNLayerAssociations Resources.

(** ** [debug] *)

(** [debug(...args)], for any arguments: what [serverless.cli.debug] gets
    is [util.format] of the tagged arguments. *)
Definition debug_call (args : list dbgarg) : dbgline :=
  match args with
  | DValue (VStr first) :: rest => Dbg (TAG +:+ " " +:+ first) rest
  | _ => Dbg TAG args
  end.

(** The line starts with the tag. *)
Definition tagged (d : dbgline) : Prop :=
  ∃ rest, dbg_format d = TAG +:+ rest.

(** ** More examples *)

Definition foo_target : string := "arn:aws:lambda:us-east-1:123:layer:foo".

(** The requests for [bar] and then for [foo] are answered, the other way
    round. *)
Definition bar_then_foo : list (nat * response) :=
  [ (1, Resolve {| LayerVersions := []; NextMarker := VUndefined |});
    (0, Resolve {| LayerVersions := [record 1 "A1"; record 2 "A2"]; NextMarker := VUndefined |}) ].

Definition two_layers_after' : state :=
  Eval vm_compute in
    default (update "us-east-1" two_layers [VArr 0])
            (run bar_then_foo (update "us-east-1" two_layers [VArr 0])).

(** The request for [foo] fails. *)
Definition foo_fails : list (nat * response) :=
  [ (0, Reject (ProviderError "AccessDenied")) ].

Definition two_layers_failed : state :=
  Eval vm_compute in
    default (update "us-east-1" two_layers [VArr 0])
            (run foo_fails (update "us-east-1" two_layers [VArr 0])).

Definition foo_task : task :=
  Task "arn:aws:lambda:us-east-1:123:layer:foo" [Listener 0 0] None VUndefined Awaiting.

(** The request for [foo] is answered with two versions whose ARNs are no
    placeholder references. *)
Definition foo_resolved : list (nat * response) :=
  [ (0, Resolve {| LayerVersions := [record 1 "arn:aws:lambda:us-east-1:123:layer:foo:1";
                                     record 2 "arn:aws:lambda:us-east-1:123:layer:foo:2"];
                   NextMarker := VUndefined |}) ].

Definition one_layer : list (list value) := [[VStr foo_reference; VStr "other"]].

Definition one_layer_after : state :=
  Eval vm_compute in
    default (update "us-east-1" one_layer [VArr 0; VArr 0])
            (run foo_resolved (update "us-east-1" one_layer [VArr 0; VArr 0])).

(** [({ Type }) => Type === 'AWS::Lambda::Function'], on a resource that
    is neither [undefined] nor [null]. *)
Definition is_function (resource : tree) : bool :=
  match prop resource "Type" with
  | Some type => strict_eq (to_value type) (VStr Lambda_Function)
  | None => false
  end.

(** Two functions, the second without layers, and a function that is
    [null]. *)
Definition some_functions : list (string * tree) :=
  [ ("hello", TObject 0 [("handler", TStr "hello.main"); ("layers", TArr 0)]);
    ("7", TObject 1 [("handler", TStr "seven.main")]) ].

Definition null_function : list (string * tree) :=
  [ ("hello", TObject 0 [("layers", TArr 0)]); ("broken", TNull) ].

(** A function with layers, a bucket that has a [Layers] property, and a
    function without properties. *)
Definition some_resources : list (string * tree) :=
  [ ("HelloLambdaFunction",
     TObject 0 [("Type", TStr "AWS::Lambda::Function");
                ("Properties", TObject 1 [("Layers", TArr 0)])]);
    ("Bucket",
     TObject 2 [("Type", TStr "AWS::S3::Bucket");
                ("Properties", TObject 3 [("Layers", TArr 1)])]);
    ("BareLambdaFunction", TObject 4 [("Type", TStr "AWS::Lambda::Function")]) ].

(** Two arrays that hold the same placeholder reference. *)
Definition two_arrays : list (list value) :=
  [[VStr foo_reference]; [VStr foo_reference]].

Definition two_arrays_after : state :=
  Eval vm_compute in
    default (update "us-east-1" two_arrays [VArr 0; VUndefined])
            (run foo_resolved (update "us-east-1" two_arrays [VArr 0; VUndefined])).


Definition marked_page : Result :=
  {| LayerVersions := [record 1 "A1"]; NextMarker := VStr "page-2" |}.

Definition two_layers_paging : state :=
  Eval vm_compute in
    default (update "us-east-1" two_layers [VArr 0])
            (run [(0, Resolve marked_page)] (update "us-east-1" two_layers [VArr 0])).

(* ===================================================================== *)
(** * Properties *)

(** ** The matcher *)

Lemma literal_app p r : literal p (p +:+ r) = Some r.
Proof.
  induction p as [|c p IH]; simpl; [done|].
  by rewrite Ascii.eqb_refl.
Qed.

Lemma literal_inv p s r : literal p s = Some r → s = p +:+ r.
Proof.
  revert s. induction p as [|c p IH]; intros s; simpl.
  - by intros [= ->].
  - destruct s as [|d s]; [done|].
    destruct (Ascii.eqb c d) eqn:E; [|done].
    apply Ascii.eqb_eq in E as ->. intros H. by rewrite (IH _ H).
Qed.

Lemma not_colon_star_inv s m r :
  not_colon_star s = (m, r) → s = m +:+ r ∧ colon_free m = true.
Proof.
  revert m r. induction s as [|c s IH]; intros m r; simpl.
  - by intros [= <- <-].
  - destruct (Ascii.eqb c colon) eqn:E.
    + by intros [= <- <-].
    + destruct (not_colon_star s) as [m' r'] eqn:Es. intros [= <- <-].
      destruct (IH _ _ eq_refl) as [-> Hm]. simpl. by rewrite E.
Qed.

Lemma not_colon_star_colon m r :
  colon_free m = true →
  not_colon_star (m +:+ String ":"%char r) = (m, String ":"%char r).
Proof.
  intros Hm. change ":"%char with colon. induction m as [|c m IH]; simpl in *; [done|].
  apply andb_true_iff in Hm as [Hc Hm]. apply negb_true_iff in Hc.
  by rewrite Hc, (IH Hm).
Qed.

Lemma not_colon_plus_colon m r :
  component m → not_colon_plus (m +:+ String ":"%char r) = Some (m, String ":"%char r).
Proof.
  intros [Hne Hm]. unfold not_colon_plus. rewrite (not_colon_star_colon _ _ Hm).
  by destruct m.
Qed.

Lemma not_colon_plus_inv s m r :
  not_colon_plus s = Some (m, r) → s = m +:+ r ∧ component m.
Proof.
  unfold not_colon_plus. destruct (not_colon_star s) as [m' r'] eqn:E.
  apply not_colon_star_inv in E as [-> Hm].
  destruct m'; [done|]. intros [= <- <-]. by repeat split.
Qed.

Lemma not_colon_plus_step m p rest :
  component m →
  not_colon_plus (m +:+ String ":"%char p +:+ rest) = Some (m, String ":"%char p +:+ rest).
Proof.
  intros Hm. change (String ":"%char p +:+ rest) with (String ":"%char (p +:+ rest)).
  by apply not_colon_plus_colon.
Qed.

(** [reg] accepts exactly the layer references, and its groups are their
    components. *)
Lemma reg_exec_complete r a n :
  component r → component a → component n →
  reg_exec (layer_reference r a n) = Some (Groups r a n).
Proof.
  intros Hr Ha Hn. unfold reg_exec, layer_reference.
  rewrite literal_app. cbn [mbind option_bind].
  rewrite (not_colon_plus_step r "" _ Hr). cbn [mbind option_bind].
  rewrite (literal_app ":"). cbn [mbind option_bind].
  rewrite (not_colon_plus_step a "layer:" _ Ha). cbn [mbind option_bind].
  rewrite (literal_app ":layer:"). cbn [mbind option_bind].
  rewrite (not_colon_plus_step n "" _ Hn). cbn [mbind option_bind].
  change (":" +:+ sentinel) with (":serverless-latest-layer-version" +:+ "").
  by rewrite literal_app.
Qed.

Lemma reg_exec_sound s g :
  reg_exec s = Some g →
  s = layer_reference (g_region g) (g_accountId g) (g_layerName g)
  ∧ component (g_region g) ∧ component (g_accountId g) ∧ component (g_layerName g).
Proof.
  unfold reg_exec. intros H.
  destruct (literal "arn:aws:lambda:" s) as [s1|] eqn:E1; cbn [mbind option_bind] in H; [|done].
  destruct (not_colon_plus s1) as [[r s2]|] eqn:E2; cbn [mbind option_bind] in H; [|done].
  destruct (literal ":" s2) as [s3|] eqn:E3; cbn [mbind option_bind] in H; [|done].
  destruct (not_colon_plus s3) as [[a s4]|] eqn:E4; cbn [mbind option_bind] in H; [|done].
  destruct (literal ":layer:" s4) as [s5|] eqn:E5; cbn [mbind option_bind] in H; [|done].
  destruct (not_colon_plus s5) as [[n s6]|] eqn:E6; cbn [mbind option_bind] in H; [|done].
  destruct (literal ":serverless-latest-layer-version" s6) as [s7|] eqn:E7;
    cbn [mbind option_bind] in H; [|done].
  destruct s7; [|done]. injection H as <-. cbn [g_region g_accountId g_layerName].
  apply literal_inv in E1, E3, E5, E7.
  apply not_colon_plus_inv in E2 as [-> Hr], E4 as [-> Ha], E6 as [-> Hn].
  subst. split; [reflexivity|done].
Qed.

Lemma reg_exec_iff s r a n :
  reg_exec s = Some (Groups r a n)
  ↔ s = layer_reference r a n ∧ component r ∧ component a ∧ component n.
Proof.
  split.
  - intros H. by apply reg_exec_sound in H.
  - intros (-> & Hr & Ha & Hn). by apply reg_exec_complete.
Qed.

Lemma reg_exec_truthy s g : reg_exec s = Some g → truthy (VStr s) = true.
Proof. by destruct s. Qed.

(** What [extractLayerName] answers on a string that [reg] accepts. *)
Lemma extractLayerName_matched ambient s g :
  reg_exec s = Some g →
  extractLayerName ambient (VStr s) =
    (Some (if String.eqb (g_accountId g) "?" then g_layerName g
           else "arn:aws:lambda:"
                +:+ (if String.eqb (g_region g) "?" then ambient else g_region g)
                +:+ ":" +:+ g_accountId g +:+ ":layer:" +:+ g_layerName g),
     []).
Proof.
  intros H. unfold extractLayerName.
  rewrite (reg_exec_truthy _ _ H). cbn [negb]. by rewrite H.
Qed.

Lemma extractLayerName_unmatched ambient s :
  reg_exec s = None → (extractLayerName ambient (VStr s)).1 = None.
Proof.
  intros H. unfold extractLayerName.
  destruct (negb (truthy (VStr s))); [done|]. by rewrite H.
Qed.

Lemma extractLayerName_not_string ambient v :
  is_string v = false → (extractLayerName ambient v).1 = None.
Proof.
  intros H. unfold extractLayerName.
  destruct (negb (truthy v)); [done|]. by destruct v.
Qed.

(** A target is never the empty string: it is a layer name, or starts
    with [arn]. *)
Lemma target_inv ambient v k :
  target ambient v = Some k →
  ∃ s g, v = VStr s ∧ reg_exec s = Some g ∧ truthy (VStr k) = true.
Proof.
  unfold target. intros H.
  destruct v as [| |b|z| |s|a|o];
    try (by rewrite extractLayerName_not_string in H).
  destruct (reg_exec s) as [g|] eqn:E.
  - exists s, g. split_and!; [done..|].
    rewrite (extractLayerName_matched _ _ _ E) in H. simpl in H.
    apply reg_exec_sound in E as (_ & _ & _ & [Hn _]).
    injection H as <-. destruct (String.eqb (g_accountId g) "?"); [|done].
    by destruct (g_layerName g).
  - by rewrite extractLayerName_unmatched in H.
Qed.

(** ** The heap *)

Lemma read_Some h l v :
  read h l = Some v ↔ ∃ arr, h !! layers l = Some arr ∧ arr !! index l = Some v.
Proof.
  unfold read. destruct (h !! layers l) as [arr|]; simpl.
  - split; [by exists arr|]. by intros (? & [= <-] & ?).
  - split; [done|]. by intros (? & ? & ?).
Qed.

Lemma read_array h l : read h l = array h (layers l) !! index l.
Proof. unfold read, array. by destruct (h !! layers l). Qed.

Lemma read_invoke_eq h l v :
  is_Some (read h l) → read (invoke h (l, v)) l = Some v.
Proof.
  intros [v0 (arr & Ha & Hi)%read_Some]. unfold read, invoke. simpl.
  rewrite list_lookup_alter_eq, Ha. simpl. unfold array_set.
  apply lookup_lt_Some in Hi as Hlt. rewrite decide_True by done.
  by apply list_lookup_insert_eq.
Qed.

Lemma read_invoke_ne h l l' v :
  is_Some (read h l) → l ≠ l' → read (invoke h (l, v)) l' = read h l'.
Proof.
  intros [v0 (arr & Ha & Hi)%read_Some] Hne. unfold read, invoke. simpl.
  destruct (decide (layers l = layers l')) as [Heq|Hd].
  - rewrite <- Heq, list_lookup_alter_eq, Ha. simpl. unfold array_set.
    apply lookup_lt_Some in Hi as Hlt. rewrite decide_True by done.
    apply list_lookup_insert_ne. intros Hidx. apply Hne.
    destruct l, l'. simpl in *. congruence.
  - by rewrite list_lookup_alter_ne.
Qed.

Lemma read_invoke_is_Some h l l' v :
  is_Some (read h l) → is_Some (read (invoke h (l, v)) l') ↔ is_Some (read h l').
Proof.
  intros Hl. destruct (decide (l = l')) as [<-|Hne].
  - rewrite read_invoke_eq by done. split; [done|]. by intros _.
  - by rewrite read_invoke_ne.
Qed.

Lemma invoke_length h w : length (invoke h w) = length h.
Proof. unfold invoke. apply length_alter. Qed.

(** Calling listeners leaves every other place as it was. *)
Lemma read_fold_invoke_other ws h l' :
  (∀ w, w ∈ ws → is_Some (read h w.1)) → l' ∉ ws.*1 →
  read (fold_left invoke ws h) l' = read h l'.
Proof.
  revert h. induction ws as [|[l v] ws IH]; intros h Hin Hnot; simpl; [done|].
  rewrite fmap_cons, not_elem_of_cons in Hnot. destruct Hnot as [Hne Hnot].
  assert (Hl : is_Some (read h l)) by (apply (Hin (l, v)); left).
  rewrite IH; [by apply read_invoke_ne| |done].
  intros w Hw. apply read_invoke_is_Some; [done|]. apply Hin. by right.
Qed.

Lemma read_fold_invoke_is_Some ws h l' :
  (∀ w, w ∈ ws → is_Some (read h w.1)) →
  is_Some (read (fold_left invoke ws h) l') ↔ is_Some (read h l').
Proof.
  revert h. induction ws as [|[l v] ws IH]; intros h Hin; simpl; [done|].
  assert (Hl : is_Some (read h l)) by (apply (Hin (l, v)); left).
  rewrite IH; [by apply read_invoke_is_Some|].
  intros w Hw. apply read_invoke_is_Some; [done|]. apply Hin. by right.
Qed.

(** Calling each listener of a group with [v] leaves [v] at each place. *)
Lemma read_fold_invoke_in ls v h l :
  (∀ l', l' ∈ ls → is_Some (read h l')) → l ∈ ls →
  read (fold_left invoke (map (λ l', (l', v)) ls) h) l = Some v.
Proof.
  revert h. induction ls as [|l0 ls IH]; intros h Hin Hl; simpl.
  - by apply elem_of_nil in Hl.
  - assert (Hl0 : is_Some (read h l0)) by (apply Hin; left).
    assert (Hrest : ∀ l', l' ∈ ls → is_Some (read (invoke h (l0, v)) l')).
    { intros l' Hl'. apply read_invoke_is_Some; [done|]. apply Hin. by right. }
    destruct (decide (l ∈ ls)) as [Hmem|Hnot].
    + by apply IH.
    + apply elem_of_cons in Hl as [->|]; [|done].
      rewrite read_fold_invoke_other.
      * by apply read_invoke_eq.
      * intros w (l' & -> & Hl')%list_elem_of_fmap. simpl. by apply Hrest.
      * intros (w & Hw & (l' & -> & Hl')%list_elem_of_fmap)%list_elem_of_fmap.
        simpl in Hw. by subst.
Qed.

(** ** The reduction over the records *)

Lemma last_max_bound r vs x : last_max r vs → x ∈ vs → (Version x ≤ Version r)%Z.
Proof.
  intros (before & after & -> & Hb & Ha) Hx.
  rewrite elem_of_app, elem_of_cons in Hx.
  destruct Hx as [Hx|[->|Hx]]; [by apply Hb|lia|].
  apply Ha in Hx. lia.
Qed.

Lemma last_max_elem r vs : last_max r vs → r ∈ vs.
Proof.
  intros (before & after & -> & _). rewrite elem_of_app, elem_of_cons. auto.
Qed.

Lemma fold_pick_is_Some vs b : is_Some (fold_left pick vs (Some b)).
Proof.
  revert b. induction vs as [|v vs IH]; intros b; simpl; [by eexists|].
  destruct (Version b >? Version v)%Z; apply IH.
Qed.

Lemma fold_pick_None vs : fold_left pick vs None = None ↔ vs = [].
Proof.
  destruct vs as [|v vs]; simpl; [done|].
  split; [|done]. intros H. by destruct (fold_pick_is_Some vs v) as [? ?%(eq_trans (eq_sym H))].
Qed.

(** The loop of [processLayers] keeps the last record of greatest version. *)
Lemma fold_pick_last_max vs r : fold_left pick vs None = Some r → last_max r vs.
Proof.
  revert r. induction vs as [|v vs IH] using rev_ind; intros r; [done|].
  rewrite fold_left_app. simpl.
  destruct (fold_left pick vs None) as [b|] eqn:E; simpl.
  - specialize (IH b eq_refl).
    destruct (Version b >? Version v)%Z eqn:Hc; intros [= <-].
    + destruct IH as (before & after & -> & Hb & Ha).
      exists before, (after ++ [v]). split_and!; [by rewrite <- app_assoc|done|].
      intros x [Hx|Hx%list_elem_of_singleton]%elem_of_app; [by apply Ha|subst; lia].
    + exists vs, []. split_and!; [done| |by intros x ?%elem_of_nil].
      intros x Hx. pose proof (last_max_bound _ _ _ IH Hx). lia.
  - intros [= <-]. apply fold_pick_None in E as ->.
    exists [], []. split_and!; [done|by intros ? ?%elem_of_nil..].
Qed.

(** ** One [processLayers] *)

Lemma resume_signature t r :
  layerName (processLayers_resume t r).1 = layerName t
  ∧ listeners (processLayers_resume t r).1 = listeners t.
Proof.
  destruct r as [result|e]; simpl; [|done].
  destruct (truthy (NextMarker result)); [done|].
  by destruct (fold_left pick _ _).
Qed.

Lemma feed_settled t answers :
  settled t ≠ Awaiting → feed t answers = (t, Effects [] [] []).
Proof. intros H. destruct answers; simpl; [done|]. by destruct (settled t). Qed.

Lemma feed_cons t r answers :
  settled t = Awaiting →
  feed t (r :: answers) =
    (let '(t1, e1) := processLayers_resume t r in
     let '(t2, e2) := feed t1 answers in
     (t2, Effects (issued e1 ++ issued e2) (logged e1 ++ logged e2)
                  (written e1 ++ written e2))).
Proof. intros H. simpl. by rewrite H. Qed.

Lemma feed_signature t answers :
  layerName (feed t answers).1 = layerName t ∧ listeners (feed t answers).1 = listeners t.
Proof.
  revert t. induction answers as [|r answers IH]; intros t; simpl; [done|].
  destruct (settled t); [|done..].
  destruct (processLayers_resume t r) as [t1 e1] eqn:E1.
  destruct (feed t1 answers) as [t2 e2] eqn:E2. simpl.
  specialize (IH t1). rewrite E2 in IH. simpl in IH.
  pose proof (resume_signature t r) as Hs. rewrite E1 in Hs. simpl in Hs.
  destruct IH, Hs. split; congruence.
Qed.

(** While pages carry a marker the coroutine goes on: one request per
    page, nothing written. *)
Lemma feed_marked t pages :
  settled t = Awaiting → Forall (λ p, truthy (NextMarker p) = true) pages →
  settled (feed t (Resolve <$> pages)).1 = Awaiting
  ∧ latestVersion (feed t (Resolve <$> pages)).1
    = fold_left pick (records pages) (latestVersion t)
  ∧ issued (feed t (Resolve <$> pages)).2 = (λ p, (layerName t, NextMarker p)) <$> pages
  ∧ written (feed t (Resolve <$> pages)).2 = [].
Proof.
  revert t. induction pages as [|p pages IH]; intros t Ht Hall; [done|].
  apply Forall_cons in Hall as [Hp Hall].
  rewrite fmap_cons, feed_cons by done. cbn [processLayers_resume]. rewrite Hp.
  set (t1 := Task _ _ _ _ _).
  destruct (IH t1 eq_refl Hall) as (H1 & H2 & H3 & H4).
  destruct (feed t1 (Resolve <$> pages)) as [t2 e2]. simpl in *.
  split_and!; [done| |by rewrite H3|done].
  rewrite H2. unfold records. simpl. by rewrite fold_left_app.
Qed.

(** The last page, without a marker, settles the coroutine. *)
Lemma feed_last t p :
  settled t = Awaiting → truthy (NextMarker p) = false →
  let latest := fold_left pick (LayerVersions p) (latestVersion t) in
  feed t [Resolve p] =
    match latest with
    | None =>
        (Task (layerName t) (listeners t) None (NextMarker p) (Rejected (no_version (layerName t))),
         Effects [] [debug "Result" [DResult p]] [])
    | Some v =>
        (Task (layerName t) (listeners t) (Some v) (NextMarker p) Fulfilled,
         Effects []
           [debug "Result" [DResult p];
            debug ("Latest version for " +:+ layerName t +:+ " → ") [DVersion v]]
           (map (λ l, (l, VStr (LayerVersionArn v))) (listeners t)))
    end.
Proof.
  intros Ht Hp. simpl. rewrite Ht. simpl. rewrite Hp.
  destruct (fold_left pick _ _); simpl; by rewrite ?app_nil_r.
Qed.

Lemma feed_app t xs ys :
  settled (feed t xs).1 = Awaiting →
  feed t (xs ++ ys) =
    (let '(t1, e1) := feed t xs in
     let '(t2, e2) := feed t1 ys in
     (t2, Effects (issued e1 ++ issued e2) (logged e1 ++ logged e2)
                  (written e1 ++ written e2))).
Proof.
  revert t. induction xs as [|x xs IH]; intros t Ht.
  - simpl in *. by destruct (feed t ys) as [t2 [? ? ?]].
  - destruct (settled t) eqn:Est.
    2,3: rewrite feed_settled in Ht by congruence; simpl in Ht; congruence.
    rewrite <- app_comm_cons, !feed_cons by done. rewrite feed_cons in Ht by done.
    destruct (processLayers_resume t x) as [t1 e1].
    destruct (feed t1 xs) as [t2 e2] eqn:E2. simpl in Ht.
    rewrite IH by (by rewrite E2). rewrite E2.
    destruct (feed t2 ys) as [t3 e3]. simpl. by rewrite !app_assoc.
Qed.

Lemma paged_split pages :
  paged pages = true →
  ∃ front last,
    pages = front ++ [last]
    ∧ Forall (λ p, truthy (NextMarker p) = true) front
    ∧ truthy (NextMarker last) = false.
Proof.
  induction pages as [|p pages IH]; [done|]. simpl.
  destruct pages as [|q pages].
  - intros H%negb_true_iff. by exists [], p.
  - intros [Hp Hrest]%andb_true_iff.
    destruct (IH Hrest) as (front & last & -> & Hf & Hl).
    exists (p :: front), last. split_and!; [done|by constructor|done].
Qed.

(** [processLayers] against pages that all carry a marker but the last. *)
Lemma resolve_pages name ls front last :
  Forall (λ p, truthy (NextMarker p) = true) front →
  truthy (NextMarker last) = false →
  let latest := fold_left pick (records (front ++ [last])) None in
  let out := resolve name ls (front ++ [last]) in
  layerName out.1 = name
  ∧ listeners out.1 = ls
  ∧ latestVersion out.1 = latest
  ∧ settled out.1 = match latest with
                    | Some _ => Fulfilled
                    | None => Rejected (no_version name)
                    end
  ∧ issued out.2 = (name, VUndefined) :: ((λ p, (name, NextMarker p)) <$> front)
  ∧ written out.2 = match latest with
                    | Some v => map (λ l, (l, VStr (LayerVersionArn v))) ls
                    | None => []
                    end.
Proof.
  intros Hfront Hlast. cbn zeta. unfold resolve, processLayers_start.
  set (t0 := Task name ls None VUndefined Awaiting).
  destruct (feed_marked t0 front eq_refl Hfront) as (H1 & H2 & H3 & H4).
  rewrite fmap_app, feed_app by done.
  destruct (feed t0 (Resolve <$> front)) as [t1 e1] eqn:E1. simpl in H1, H2, H3, H4.
  pose proof (feed_signature t0 (Resolve <$> front)) as [Hn Hl].
  rewrite E1 in Hn, Hl. simpl in Hn, Hl.
  change (Resolve <$> [last]) with [Resolve last].
  rewrite (feed_last t1 last H1 Hlast). cbn zeta.
  assert (Hrec : fold_left pick (records (front ++ [last])) None
                 = fold_left pick (LayerVersions last) (latestVersion t1)).
  { unfold records. rewrite fmap_app, concat_app, fold_left_app. simpl.
    rewrite app_nil_r. by rewrite H2. }
  rewrite Hrec, Hn, Hl.
  destruct (fold_left pick (LayerVersions last) (latestVersion t1)); simpl.
  all: by rewrite H3, H4, ?app_nil_r.
Qed.

(** ** The grouping loop *)

Lemma own_None o k : own o k = None ↔ k ∉ o.*1.
Proof.
  induction o as [|[k' ls] o IH]; simpl.
  - split; [|done]. intros _. apply not_elem_of_nil.
  - rewrite not_elem_of_cons. destruct (String.eqb k' k) eqn:E.
    + apply String.eqb_eq in E as ->. split; [done|]. by intros [? _].
    + apply String.eqb_neq in E. rewrite IH. split; [|by intros [_ ?]].
      intros ?. split; [congruence|done].
Qed.

Lemma own_Some o k ls : own o k = Some ls → (k, ls) ∈ o.
Proof.
  induction o as [|[k' ls'] o IH]; simpl; [done|].
  destruct (String.eqb k' k) eqn:E.
  - apply String.eqb_eq in E as ->. intros [= ->]. left.
  - intros H. right. by apply IH.
Qed.

Lemma push_keys o k l : (push o k l).*1 = o.*1.
Proof.
  induction o as [|[k' ls] o IH]; cbn [push]; [done|].
  destruct (String.eqb k' k); [done|]. by rewrite !fmap_cons, IH.
Qed.

Lemma holds_push o k l k' l' :
  is_Some (own o k) → holds (push o k l) k' l' ↔ holds o k' l' ∨ (k' = k ∧ l' = l).
Proof.
  unfold holds. induction o as [|[k0 ls0] o IH]; simpl.
  - by intros [? ?].
  - destruct (String.eqb k0 k) eqn:E.
    + apply String.eqb_eq in E as ->. intros _. split.
      * intros (ls & [Hin|Hin]%elem_of_cons & Hl).
        -- injection Hin as -> ->. apply elem_of_app in Hl as [Hl|Hl%list_elem_of_singleton].
           ++ left. exists ls0. split; [left|done].
           ++ by right.
        -- left. exists ls. split; [by right|done].
      * intros [(ls & [Hin|Hin]%elem_of_cons & Hl)|[-> ->]].
        -- injection Hin as -> ->. exists (ls0 ++ [l]). split; [left|].
           apply elem_of_app. by left.
        -- exists ls. split; [by right|done].
        -- exists (ls0 ++ [l]). split; [left|]. apply elem_of_app. right. left.
    + intros Hs. specialize (IH Hs). split.
      * intros (ls & [Hin|Hin]%elem_of_cons & Hl).
        -- injection Hin as -> ->. left. exists ls0. split; [left|done].
        -- destruct (proj1 IH (ex_intro _ ls (conj Hin Hl))) as [(ls' & ? & ?)|?];
             [|by right]. left. exists ls'. split; [by right|done].
      * intros [(ls & [Hin|Hin]%elem_of_cons & Hl)|Heq].
        -- injection Hin as -> ->. exists ls0. split; [left|done].
        -- destruct (proj2 IH (or_introl (ex_intro _ ls (conj Hin Hl)))) as (ls' & ? & ?).
           exists ls'. split; [by right|done].
        -- destruct (proj2 IH (or_intror Heq)) as (ls' & ? & ?).
           exists ls'. split; [by right|done].
Qed.

Lemma holds_add o k l k' l' :
  holds (add o k l) k' l' ↔ holds o k' l' ∨ (k' = k ∧ l' = l).
Proof.
  unfold add. destruct (own o k) as [ls|] eqn:E.
  - apply holds_push. by rewrite E.
  - unfold holds. split.
    + intros (ls & [Hin|Hin%list_elem_of_singleton]%elem_of_app & Hl).
      * left. by exists ls.
      * injection Hin as -> ->. apply list_elem_of_singleton in Hl. by right.
    + intros [(ls & Hin & Hl)|[-> ->]].
      * exists ls. split; [|done]. apply elem_of_app. by left.
      * exists [l]. split; [|left]. apply elem_of_app. right. left.
Qed.

Lemma add_NoDup o k l : NoDup o.*1 → NoDup (add o k l).*1.
Proof.
  intros Hnd. unfold add. destruct (own o k) as [ls|] eqn:E.
  - by rewrite push_keys.
  - rewrite fmap_app. apply NoDup_app. split_and!; [done| |apply NoDup_singleton].
    intros x Hx Hk%list_elem_of_singleton. simpl in Hk. subst.
    by apply own_None in E.
Qed.

Lemma holds_nil k l : ¬ holds [] k l.
Proof. by intros (ls & ?%elem_of_nil & _). Qed.

(** One call of the callback: it throws when the target is a name that
    [{}] inherits and owns no group yet, and adds the listener to the
    group of the target otherwise. *)
Lemma callback_spec ambient a layer index g :
  callback ambient a layer index g =
    let g0 := Grouping (layerAssociation g) (notes g ++ (extractLayerName ambient layer).2) in
    match target ambient layer with
    | None => (g0, None)
    | Some k =>
        if bool_decide (own (layerAssociation g) k = None ∧ k ∈ Object_prototype)
        then (g0, Some thrown)
        else (Grouping (add (layerAssociation g) k (Listener a index)) (notes g0), None)
    end.
Proof.
  unfold callback. pose proof (target_inv ambient layer) as Hinv. unfold target in *.
  destruct (extractLayerName ambient layer) as [[k|] said]; simpl in *; [|done].
  destruct (Hinv k eq_refl) as (s & tokens & _ & _ & ->). cbn [negb].
  unfold get, add. destruct (own (layerAssociation g) k) as [ls|] eqn:E.
  - rewrite bool_decide_false; [done|]. by intros [? _].
  - destruct (bool_decide (k ∈ Object_prototype)) eqn:Hp.
    + apply bool_decide_eq_true in Hp. by rewrite bool_decide_true.
    + apply bool_decide_eq_false in Hp. rewrite bool_decide_false; [done|]. by intros [_ ?].
Qed.

Lemma forEach_spec ambient a elems : ∀ idx g g' err,
  forEach ambient a idx elems g = (g', err) →
  (NoDup (layerAssociation g).*1 → NoDup (layerAssociation g').*1)
  ∧ (∀ d, d ∈ notes g' →
       d ∈ notes g ∨ ∃ v, v ∈ elems ∧ d ∈ (extractLayerName ambient v).2)
  ∧ match err with
    | None =>
        ∀ k l, holds (layerAssociation g') k l ↔
          holds (layerAssociation g) k l
          ∨ (layers l = a ∧ ∃ j v, index l = idx + j ∧ elems !! j = Some v
                                   ∧ target ambient v = Some k)
    | Some e =>
        e = thrown ∧ ∃ v k, v ∈ elems ∧ target ambient v = Some k ∧ k ∈ Object_prototype
    end.
Proof.
  induction elems as [|layer rest IH]; intros idx g g' err; simpl.
  - intros [= <- <-]. split_and!; [done|by left|].
    intros k l. split; [by left|]. by intros [?|(_ & j & v & _ & ? & _)].
  - rewrite callback_spec. cbn zeta.
    destruct (target ambient layer) as [k0|] eqn:Ht.
    + destruct (bool_decide _) eqn:Hd.
      * apply bool_decide_eq_true in Hd as [_ Hp]. intros [= <- <-]. simpl.
        split; [done|]. split.
        -- intros d [Hd|Hd]%elem_of_app; [by left|]. right. exists layer. split; [left|done].
        -- split; [done|]. exists layer, k0. split_and!; [left|done..].
      * clear Hd. intros Hrest. apply IH in Hrest as (Hnd & Hnotes & Herr). simpl in *.
        split; [|split].
        -- intros H. by apply Hnd, add_NoDup.
        -- intros d Hd. apply Hnotes in Hd as [[Hd|Hd]%elem_of_app|(v & Hv & Hd)].
           ++ by left.
           ++ right. exists layer. split; [left|done].
           ++ right. exists v. split; [by right|done].
        -- destruct err as [e|].
           ++ destruct Herr as (-> & v & k & Hv & Hk & Hp). split; [done|].
              exists v, k. split_and!; [by right|done..].
           ++ intros k l. rewrite Herr, holds_add. split.
              ** intros [[?|[-> ->]]|(Hl & j & v & Hj & Hv & Hk)].
                 --- by left.
                 --- right. split; [done|]. exists 0, layer. simpl.
                     split_and!; [lia|done..].
                 --- right. split; [done|]. exists (S j), v. simpl.
                     split_and!; [lia|done..].
              ** intros [?|(Hl & j & v & Hj & Hv & Hk)]; [by left; left|].
                 destruct j as [|j]; simpl in Hv.
                 --- injection Hv as <-. left. right.
                     split; [congruence|]. destruct l. simpl in *. f_equal; [done|lia].
                 --- right. split; [done|]. exists j, v. split_and!; [lia|done..].
    + intros Hrest. apply IH in Hrest as (Hnd & Hnotes & Herr). simpl in *.
      split; [done|]. split.
      * intros d Hd. apply Hnotes in Hd as [[Hd|Hd]%elem_of_app|(v & Hv & Hd)].
        -- by left.
        -- right. exists layer. split; [left|done].
        -- right. exists v. split; [by right|done].
      * destruct err as [e|].
        -- destruct Herr as (-> & v & k & Hv & Hk & Hp). split; [done|].
           exists v, k. split_and!; [by right|done..].
        -- intros k l. rewrite Herr. split.
           ++ intros [?|(Hl & j & v & Hj & Hv & Hk)]; [by left|].
              right. split; [done|]. exists (S j), v. simpl. split_and!; [lia|done..].
           ++ intros [?|(Hl & j & v & Hj & Hv & Hk)]; [by left|].
              destruct j as [|j]; simpl in Hv; [congruence|].
              right. split; [done|]. exists j, v. split_and!; [lia|done..].
Qed.

Lemma refers_cons_array ambient h a rest l k :
  refers ambient h (VArr a :: rest) l k ↔
    (layers l = a ∧ ∃ j v, index l = 0 + j ∧ array h a !! j = Some v
                            ∧ target ambient v = Some k)
    ∨ refers ambient h rest l k.
Proof.
  unfold refers. rewrite elem_of_cons, read_array. split.
  - intros [[[= Ha]|Hin] (v & Hv & Hk)].
    + left. split; [done|]. exists (index l), v. by rewrite <- Ha.
    + right. split; [done|]. by exists v.
  - intros [(<- & j & v & Hj & Hv & Hk)|[Hin Hv]].
    + split; [by left|]. exists v. simpl in Hj. by rewrite Hj.
    + split; [by right|done].
Qed.

Lemma refers_cons_other ambient h x rest l k :
  isArray x = false → refers ambient h (x :: rest) l k ↔ refers ambient h rest l k.
Proof.
  intros Hx. unfold refers. rewrite elem_of_cons. split.
  - intros [[<-|Hin] Hv]; [done|]. by split.
  - intros [Hin Hv]. split; [by right|done].
Qed.

(** The grouping loop: it throws only on a target that [{}] inherits;
    otherwise the groups hold exactly the eligible references of the
    arrays of [layersList], each under its target. *)
Lemma group_spec ambient h layersList : ∀ g g' err,
  group ambient h layersList g = (g', err) →
  (NoDup (layerAssociation g).*1 → NoDup (layerAssociation g').*1)
  ∧ (∀ d, d ∈ notes g' →
       d ∈ notes g
       ∨ ∃ a v, VArr a ∈ layersList ∧ v ∈ array h a ∧ d ∈ (extractLayerName ambient v).2)
  ∧ match err with
    | None =>
        ∀ k l, holds (layerAssociation g') k l ↔
          holds (layerAssociation g) k l ∨ refers ambient h layersList l k
    | Some e =>
        e = thrown ∧ ∃ l k, refers ambient h layersList l k ∧ k ∈ Object_prototype
    end.
Proof.
  induction layersList as [|x rest IH]; intros g g' err.
  - simpl. intros [= <- <-]. split; [done|]. split; [by left|].
    intros k l. split; [by left|]. intros [?|[?%elem_of_nil _]]; done.
  - destruct (isArray x) eqn:Hx.
    + destruct x as [| | | | | |a|]; try done. simpl.
      destruct (forEach ambient a 0 (array h a) g) as [g1 [e|]] eqn:E1.
      * intros [= <- <-]. apply forEach_spec in E1 as (Hnd & Hnotes & -> & v & k & Hv & Hk & Hp).
        split; [done|]. split.
        -- intros d Hd. apply Hnotes in Hd as [?|(v' & ? & ?)]; [by left|].
           right. exists a, v'. split; [left|done].
        -- split; [done|]. apply list_elem_of_lookup in Hv as [j Hj].
           exists (Listener a j), k. split; [|done].
           apply refers_cons_array. left. split; [done|]. by exists j, v.
      * intros Hrest. apply forEach_spec in E1 as (Hnd1 & Hnotes1 & Hholds1).
        apply IH in Hrest as (Hnd & Hnotes & Herr).
        split; [auto|]. split.
        -- intros d Hd. apply Hnotes in Hd as [Hd|(a' & v' & ? & ? & ?)].
           ++ apply Hnotes1 in Hd as [?|(v' & ? & ?)]; [by left|].
              right. exists a, v'. split; [left|done].
           ++ right. exists a', v'. split; [by right|done].
        -- destruct err as [e|].
           ++ destruct Herr as (-> & l & k & Hr & Hp). split; [done|].
              exists l, k. split; [|done]. apply refers_cons_array. by right.
           ++ intros k l. rewrite Herr, Hholds1, refers_cons_array. tauto.
    + assert (Hg : group ambient h (x :: rest) g = group ambient h rest g)
        by (by destruct x).
      rewrite Hg. intros Hrest. apply IH in Hrest as (Hnd & Hnotes & Herr).
      split; [done|]. split.
      * intros d Hd. apply Hnotes in Hd as [?|(a' & v' & ? & ? & ?)]; [by left|].
        right. exists a', v'. split; [by right|done].
      * destruct err as [e|].
        -- destruct Herr as (-> & l & k & Hr & Hp). split; [done|].
           exists l, k. split; [|done]. by apply refers_cons_other.
        -- intros k l. rewrite Herr. by rewrite refers_cons_other.
Qed.

(** ** [Object.entries] and the launch *)

Lemma entries_Permutation o : entries o ≡ₚ o.
Proof.
  unfold entries. rewrite merge_sort_Permutation.
  induction o as [|e o IH]; [done|].
  rewrite filter_cons. cbn [omap list_omap].
  destruct (decide (array_index e.1 = None)) as [E|E].
  - rewrite E. cbn [mbind option_bind]. rewrite <- Permutation_middle. by rewrite IH.
  - destruct (array_index e.1) as [n|]; [|done].
    cbn [mbind option_bind]. rewrite fmap_cons. simpl. by rewrite IH.
Qed.

Lemma fold_launch es : ∀ σ,
  fold_left launch es σ =
    State (heap σ)
          (tasks σ ++ (fresh <$> es))
          (requests σ ++ ((λ e, (e.1, VUndefined)) <$> es))
          (debugLog σ
           ++ ((λ e, debug "Fetching versions for" [DValue (VStr e.1)]) <$> es))
          (writes σ)
          (promise σ).
Proof.
  induction es as [|e es IH]; intros σ; simpl.
  - rewrite !app_nil_r. by destruct σ.
  - rewrite IH. unfold launch, perform. simpl.
    rewrite !app_nil_r, <- !app_assoc. done.
Qed.

Lemma forallb_fresh es : forallb is_fulfilled (fresh <$> es) = match es with [] => true | _ => false end.
Proof. by destruct es. Qed.

(** The state [update] leaves when it reaches [await]. *)
Lemma update_spec ambient h layersList :
  match group ambient h layersList (Grouping [] []) with
  | (g, Some e) => update ambient h layersList = State h [] [] (notes g) [] (Threw e)
  | (g, None) =>
      let es := entries (layerAssociation g) in
      update ambient h layersList =
        State h (fresh <$> es) ((λ e, (e.1, VUndefined)) <$> es)
              (notes g ++ ((λ e, debug "Fetching versions for" [DValue (VStr e.1)]) <$> es))
              []
              (match es with [] => Returned | _ => Pending end)
  end.
Proof.
  unfold update. destruct (group _ _ _ _) as [g [e|]]; [done|].
  cbn zeta. rewrite fold_launch. simpl. rewrite forallb_fresh.
  by destruct (entries (layerAssociation g)).
Qed.

(** ** Runs *)

Lemma deliver_inv i r σ σ' :
  deliver i r σ = Some σ' →
  ∃ t, tasks σ !! i = Some t ∧ settled t = Awaiting
       ∧ σ' = State (fold_left invoke (written (processLayers_resume t r).2) (heap σ))
                    (<[i := (processLayers_resume t r).1]> (tasks σ))
                    (requests σ ++ issued (processLayers_resume t r).2)
                    (debugLog σ ++ logged (processLayers_resume t r).2)
                    (writes σ ++ written (processLayers_resume t r).2)
                    (all (<[i := (processLayers_resume t r).1]> (tasks σ))
                         (settled (processLayers_resume t r).1) (promise σ)).
Proof.
  unfold deliver. destruct (tasks σ !! i) as [t|] eqn:Hi; [|done]. simpl.
  intros H. exists t. destruct (settled t) eqn:Hs; [|done..].
  destruct (processLayers_resume t r) as [t' e]. injection H as <-.
  split; [done|]. split; [done|]. reflexivity.
Qed.

(** The three ways a resumed [processLayers] reaches its next stop. *)
Lemma resume_cases t r :
  let t' := (processLayers_resume t r).1 in
  let e := (processLayers_resume t r).2 in
  layerName t' = layerName t ∧ listeners t' = listeners t
  ∧ ((settled t' = Awaiting ∧ written e = []
      ∧ ∃ m, truthy m = true ∧ issued e = [(layerName t, m)])
     ∨ (∃ err, settled t' = Rejected err ∧ written e = [] ∧ issued e = [])
     ∨ (∃ v, settled t' = Fulfilled ∧ latestVersion t' = Some v
             ∧ written e = map (λ l, (l, VStr (LayerVersionArn v))) (listeners t)
             ∧ issued e = [])).
Proof.
  destruct r as [result|err]; simpl.
  - destruct (truthy (NextMarker result)) eqn:Hm; simpl.
    + split; [done|]. split; [done|]. left. split; [done|]. split; [done|].
      by exists (NextMarker result).
    + destruct (fold_left pick _ _) as [v|]; simpl.
      * split; [done|]. split; [done|]. right. right. by exists v.
      * split; [done|]. split; [done|]. right. left. by eexists.
  - split; [done|]. split; [done|]. right; left. by exists err.
Qed.

Lemma lookup_insert_cases {A} (l : list A) i j x y z :
  l !! i = Some x → <[i := y]> l !! j = Some z →
  (j = i ∧ z = y) ∨ (j ≠ i ∧ l !! j = Some z).
Proof.
  intros Hi Hj. destruct (decide (j = i)) as [->|Hne].
  - left. split; [done|]. rewrite list_lookup_insert_eq in Hj by (by eapply lookup_lt_Some).
    congruence.
  - right. split; [done|]. by rewrite list_lookup_insert_ne in Hj.
Qed.

Lemma forallb_fulfilled ts :
  forallb is_fulfilled ts = true ↔ ∀ i t, ts !! i = Some t → settled t = Fulfilled.
Proof.
  induction ts as [|t ts IH]; simpl.
  - split; [|done]. by intros _ i t.
  - rewrite andb_true_iff, IH. split.
    + intros [Ht Hall] [|i] t'; simpl; [|by apply Hall].
      intros [= <-]. unfold is_fulfilled in Ht. by destruct (settled t).
    + intros Hall. split.
      * unfold is_fulfilled. by rewrite (Hall 0 t eq_refl).
      * intros i t'. apply (Hall (S i) t').
Qed.

Lemma forallb_not_fulfilled ts :
  forallb is_fulfilled ts = false → ∃ i t, ts !! i = Some t ∧ settled t ≠ Fulfilled.
Proof.
  induction ts as [|t ts IH]; simpl; [done|].
  intros [Ht|Hts]%andb_false_iff.
  - exists 0, t. split; [done|]. unfold is_fulfilled in Ht. by destruct (settled t).
  - destruct (IH Hts) as (i & t' & Hi & Hs). by exists (S i), t'.
Qed.

Lemma filter_all {A} (P : A → Prop) `{!∀ x, Decision (P x)} (l : list A) :
  (∀ x, x ∈ l → P x) → filter P l = l.
Proof.
  induction l as [|x l IH]; intros Hall; [done|].
  rewrite filter_cons_True by (apply Hall; left).
  f_equal. apply IH. intros y Hy. apply Hall. by right.
Qed.

Lemma filter_none {A} (P : A → Prop) `{!∀ x, Decision (P x)} (l : list A) :
  (∀ x, x ∈ l → ¬ P x) → filter P l = [].
Proof.
  induction l as [|x l IH]; intros Hall; [done|].
  rewrite filter_cons_False by (apply Hall; left).
  apply IH. intros y Hy. apply Hall. by right.
Qed.

Section preservation.
Context (ambient : string) (h0 : list (list value)) (layersList : list value).

Local Abbreviation Inv := (invariant ambient h0 layersList).

Lemma refers_functional l k k' :
  refers ambient h0 layersList l k → refers ambient h0 layersList l k' → k = k'.
Proof. intros [_ (v & Hv & Hk)] [_ (v' & Hv' & Hk')]. congruence. Qed.

(** The groups of two [processLayers] share no place: what is stored at
    a place decides its target. *)
Lemma listeners_disjoint σ i j t t' l :
  Inv σ → tasks σ !! i = Some t → tasks σ !! j = Some t' →
  l ∈ listeners t → l ∈ listeners t' → i = j.
Proof.
  intros I Hi Hj Hl Hl'.
  pose proof (refers_functional _ _ _ (inv_refers I i t l Hi Hl)
                (inv_refers I j t' l Hj Hl')) as Hn.
  eapply NoDup_lookup; [apply (inv_names I)| |].
  - rewrite list_lookup_fmap, Hi. done.
  - rewrite list_lookup_fmap, Hj. simpl. by rewrite Hn.
Qed.

Lemma listeners_in_range σ i t l :
  Inv σ → tasks σ !! i = Some t → l ∈ listeners t → is_Some (read (heap σ) l).
Proof.
  intros I Hi Hl. apply (inv_shape I).
  destruct (inv_refers I i t l Hi Hl) as [_ (v & -> & _)]. by eexists.
Qed.

Lemma filter_block_in (ls : list listener) (x : value) :
  filter (λ w : listener * value, w.1 ∈ ls) (map (λ l, (l, x)) ls) = map (λ l, (l, x)) ls.
Proof.
  apply filter_all. by intros w (l & -> & Hl)%list_elem_of_fmap.
Qed.

Lemma filter_block_out (ls ls' : list listener) (x : value) :
  (∀ l, l ∈ ls → l ∉ ls') →
  filter (λ w : listener * value, w.1 ∈ ls') (map (λ l, (l, x)) ls) = [].
Proof.
  intros Hd. apply filter_none.
  intros w (l & -> & Hl)%list_elem_of_fmap. simpl. by apply Hd.
Qed.

(** Each step of a run keeps the invariant. *)
Lemma invariant_deliver σ σ' i r : Inv σ → deliver i r σ = Some σ' → Inv σ'.
Proof.
  intros I (t & Hi & Hs & ->)%deliver_inv.
  destruct (resume_cases t r) as (Hn & Hl & Hcases). cbn zeta in *.
  set (t' := (processLayers_resume t r).1) in *.
  set (e := (processLayers_resume t r).2) in *.
  assert (Hnames : layerName <$> <[i:=t']> (tasks σ) = layerName <$> tasks σ).
  { rewrite list_fmap_insert, Hn. apply list_insert_id. by rewrite list_lookup_fmap, Hi. }
  assert (Hlook : ∀ j tj, <[i:=t']> (tasks σ) !! j = Some tj →
            (j = i ∧ tj = t') ∨ (j ≠ i ∧ tasks σ !! j = Some tj))
    by (intros; by eapply lookup_insert_cases).
  assert (Hi' : <[i:=t']> (tasks σ) !! i = Some t')
    by (apply list_lookup_insert_eq; by eapply lookup_lt_Some).
  assert (Hother : ∀ j tj, j ≠ i → tasks σ !! j = Some tj →
            <[i:=t']> (tasks σ) !! j = Some tj)
    by (intros; by rewrite list_lookup_insert_ne).
  assert (Hold : ∀ j tj, tasks σ !! j = Some tj → settled tj ≠ Awaiting → j ≠ i)
    by (intros j tj Hj Hne ->; congruence).
  assert (Hrange : ∀ w, w ∈ written e → is_Some (read (heap σ) w.1)).
  { intros w Hw.
    destruct Hcases as [(_ & Hw' & _)|[(? & _ & Hw' & _)|(v & _ & _ & Hw' & _)]];
      rewrite Hw' in Hw; [by apply elem_of_nil in Hw..|].
    apply list_elem_of_fmap in Hw as (l & -> & Hl'). by eapply listeners_in_range. }
  assert (Hwritten : written e = [] ∧ settled t' ≠ Fulfilled ∧ block t' = []
            ∨ ∃ v, settled t' = Fulfilled ∧ latestVersion t' = Some v
                   ∧ written e = map (λ l, (l, VStr (LayerVersionArn v))) (listeners t)).
  { destruct Hcases as [(Hst & Hw & _)|[(? & Hst & Hw & _)|(v & Hst & Hv & Hw & _)]].
    - left. unfold block. rewrite Hst. by split_and!.
    - left. unfold block. rewrite Hst. by split_and!.
    - right. by exists v. }
  assert (Hblock_t : block t = []) by (unfold block; by rewrite Hs).
  constructor; cbn [heap tasks requests debugLog writes promise].
  - (* names *) by rewrite Hnames; apply (inv_names I).
  - (* refers *)
    intros j tj l [[-> ->]|[Hne Hj]]%Hlook Hin.
    + rewrite Hn. rewrite Hl in Hin. by eapply (inv_refers I).
    + by eapply (inv_refers I).
  - (* shape *)
    intros l. rewrite read_fold_invoke_is_Some by done. apply (inv_shape I).
  - (* fulfilled *)
    intros j tj [[-> ->]|[Hne Hj]]%Hlook Hst.
    + destruct Hwritten as [(_ & Hnf & _)|(v & _ & Hv & Hw)]; [done|].
      exists v. split; [done|]. rewrite Hl, Hw. intros l Hin.
      apply read_fold_invoke_in; [|done].
      intros l' Hl'. by eapply listeners_in_range.
    + destruct (inv_fulfilled I j tj Hj Hst) as (v & Hv & Hread).
      exists v. split; [done|]. intros l Hin.
      rewrite read_fold_invoke_other; [by apply Hread|done|].
      intros (w & Hw1 & Hw)%list_elem_of_fmap.
      destruct Hwritten as [(Hw' & _)|(v' & _ & _ & Hw')]; rewrite Hw' in Hw.
      * by apply elem_of_nil in Hw.
      * apply list_elem_of_fmap in Hw as (l' & -> & Hl'). simpl in Hw1. subst l'.
        apply Hne. symmetry. by eapply (listeners_disjoint σ i j t tj l).
  - (* untouched *)
    intros l Hnot. rewrite read_fold_invoke_other; [|done|].
    + apply (inv_untouched I). intros j tj Hj Hst.
      apply (Hnot j tj); [|done]. apply Hother; [|done].
      eapply Hold; [done|]. by rewrite Hst.
    + intros (w & Hw1 & Hw)%list_elem_of_fmap.
      destruct Hwritten as [(Hw' & _)|(v' & Hst & _ & Hw')]; rewrite Hw' in Hw.
      * by apply elem_of_nil in Hw.
      * apply list_elem_of_fmap in Hw as (l' & -> & Hl'). simpl in Hw1. subst l'.
        apply (Hnot i t' Hi' Hst). by rewrite Hl.
  - (* writes *)
    intros w [Hw|Hw]%elem_of_app.
    + destruct (inv_writes I w Hw) as (j & tj & Hj & Hst & Hin).
      exists j, tj. split_and!; [|done..]. apply Hother; [|done].
      eapply Hold; [done|]. by rewrite Hst.
    + destruct Hwritten as [(Hw' & _)|(v' & Hst & _ & Hw')]; rewrite Hw' in Hw.
      * by apply elem_of_nil in Hw.
      * apply list_elem_of_fmap in Hw as (l' & -> & Hl'). simpl.
        exists i, t'. split_and!; [done..|]. by rewrite Hl.
  - (* block *)
    intros j tj [[-> ->]|[Hne Hj]]%Hlook; rewrite filter_app.
    + rewrite Hl, (inv_block I i t Hi), Hblock_t. simpl.
      destruct Hwritten as [(Hw' & _ & ->)|(v' & Hst & Hv & Hw')]; rewrite Hw'; [done|].
      unfold block. rewrite Hst, Hv, Hl. apply filter_block_in.
    + rewrite (inv_block I j tj Hj).
      destruct Hwritten as [(Hw' & _)|(v' & Hst & Hv & Hw')]; rewrite Hw'.
      * by rewrite filter_nil, app_nil_r.
      * rewrite filter_block_out; [by rewrite app_nil_r|].
        intros l Hin Hin'. apply Hne. symmetry.
        by eapply (listeners_disjoint σ i j t tj l).
  - (* rejected *)
    intros j tj err [[-> ->]|[Hne Hj]]%Hlook Hst.
    + rewrite Hst. simpl. destruct (promise σ) as [| |e0] eqn:Hp; simpl; eauto.
      pose proof (inv_returned I Hp i t Hi). congruence.
    + destruct (inv_rejected I j tj err Hj Hst) as [e0 Hp]. rewrite Hp.
      exists e0. by destruct (settled t').
  - (* returned *)
    intros Hret j tj Hj.
    destruct (settled t') as [| |err] eqn:Hst; simpl in Hret.
    + pose proof (inv_returned I Hret i t Hi). congruence.
    + destruct (promise σ) as [| |e0] eqn:Hp; simpl in Hret; [|..].
      * destruct (forallb is_fulfilled _) eqn:Hall; [|done].
        by eapply (proj1 (forallb_fulfilled _) Hall).
      * pose proof (inv_returned I Hp i t Hi). congruence.
      * done.
    + destruct (promise σ) as [| |e0] eqn:Hp; simpl in Hret; [done| |done].
      pose proof (inv_returned I Hp i t Hi). congruence.
  - (* pending *)
    intros Hpen.
    destruct (settled t') as [| |err] eqn:Hst; simpl in Hpen.
    + by exists i, t'.
    + destruct (promise σ) as [| |e0] eqn:Hp; simpl in Hpen; [|done..].
      destruct (forallb is_fulfilled _) eqn:Hall; [done|].
      apply forallb_not_fulfilled in Hall as (j & tj & Hj & Hnf).
      exists j, tj. split; [done|].
      destruct (settled tj) as [| |err] eqn:Hstj; [done..|].
      destruct (Hlook j tj Hj) as [[-> ->]|[Hne Hj']]; [congruence|].
      destruct (inv_rejected I j tj err Hj' Hstj). congruence.
    + by destruct (promise σ).
  - (* threw *)
    intros e0 Hthrew. right.
    destruct (settled t') as [| |err] eqn:Hst; simpl in Hthrew.
    + destruct (inv_threw I e0 Hthrew) as [Hnil|(j & tj & Hj & Hstj)].
      * by rewrite Hnil in Hi.
      * exists j, tj. split; [|done]. apply Hother; [|done].
        eapply Hold; [done|]. by rewrite Hstj.
    + assert (promise σ = Threw e0) as Hp.
      { destruct (promise σ); simpl in Hthrew; [|done..].
        by destruct (forallb is_fulfilled _). }
      destruct (inv_threw I e0 Hp) as [Hnil|(j & tj & Hj & Hstj)].
      * by rewrite Hnil in Hi.
      * exists j, tj. split; [|done]. apply Hother; [|done].
        eapply Hold; [done|]. by rewrite Hstj.
    + destruct (promise σ) as [| |e1] eqn:Hp; simpl in Hthrew.
      * injection Hthrew as <-. by exists i, t'.
      * done.
      * injection Hthrew as <-.
        destruct (inv_threw I e1 Hp) as [Hnil|(j & tj & Hj & Hstj)].
        -- by rewrite Hnil in Hi.
        -- exists j, tj. split; [|done]. apply Hother; [|done].
           eapply Hold; [done|]. by rewrite Hstj.
  - (* requests *)
    intros name. rewrite Hnames, filter_app, length_app, (inv_requests I).
    assert (filter (λ q, q = (name, VUndefined)) (issued e) = []) as ->; [|simpl; lia].
    destruct Hcases as [(_ & _ & m & Hm & ->)|[(? & _ & _ & ->)|(v & _ & _ & _ & ->)]];
      [|done..].
    rewrite filter_cons_False; [done|]. intros [= _ ->]. done.
  - (* request names *)
    intros q [Hq|Hq]%elem_of_app; rewrite Hnames; [by apply (inv_request_names I)|].
    destruct Hcases as [(_ & _ & m & Hm & Hq')|[(? & _ & _ & Hq')|(v & _ & _ & _ & Hq')]];
      rewrite Hq' in Hq; [|by apply elem_of_nil in Hq..].
    apply list_elem_of_singleton in Hq as ->. simpl.
    apply list_elem_of_fmap. exists t. split; [done|]. by eapply list_elem_of_lookup_2.
Qed.
End preservation.

Lemma fresh_lookup (es : list (string * list listener)) (i : nat) t :
  (fresh <$> es) !! i = Some t → ∃ e, es !! i = Some e ∧ t = fresh e.
Proof.
  rewrite list_lookup_fmap. destruct (es !! i) as [e|]; [|done].
  intros [= <-]. by exists e.
Qed.

Lemma initial_requests (es : list (string * list listener)) name :
  length (filter (λ q, q = (name, VUndefined)) ((λ e, (e.1, VUndefined)) <$> es))
  = length (filter (λ n, n = name) (layerName <$> (fresh <$> es))).
Proof.
  induction es as [|e es IH]; [done|].
  rewrite !fmap_cons, !filter_cons. simpl.
  destruct (decide (e.1 = name)) as [->|Hne].
  - rewrite decide_True by done. simpl. by rewrite IH.
  - rewrite decide_False by congruence. done.
Qed.

(** The state [update] reaches at its [await] satisfies the invariant. *)
Lemma update_invariant ambient h layersList :
  invariant ambient h layersList (update ambient h layersList).
Proof.
  pose proof (update_spec ambient h layersList) as Hu.
  destruct (group ambient h layersList (Grouping [] [])) as [g [e|]] eqn:Hg.
  - rewrite Hu. constructor; cbn [heap tasks requests debugLog writes promise];
      try done; try (by intros ? ? ?%elem_of_nil); try (by intros ? ?%elem_of_nil).
    + apply NoDup_nil_2.
    + intros ? [= <-]. by left.
  - cbn zeta in Hu. rewrite Hu.
    apply group_spec in Hg as (Hnd & _ & Hholds). simpl in Hnd, Hholds.
    pose proof (entries_Permutation (layerAssociation g)) as Hperm.
    set (es := entries (layerAssociation g)) in *.
    assert (Hfresh : ∀ i t, (fresh <$> es) !! i = Some t → settled t = Awaiting)
      by (by intros i t (e & _ & ->)%fresh_lookup).
    constructor; cbn [heap tasks requests debugLog writes promise].
    + rewrite <- list_fmap_compose.
      change (layerName ∘ fresh) with (@fst string (list listener)).
      rewrite Hperm. apply Hnd, NoDup_nil_2.
    + intros i t l (e & He & ->)%fresh_lookup Hl. simpl in *.
      apply list_elem_of_lookup_2 in He. rewrite Hperm in He.
      destruct (proj1 (Hholds e.1 l)) as [[]%holds_nil|]; [|done].
      exists e.2. split; [by destruct e|done].
    + done.
    + intros i t Ht Hst. rewrite (Hfresh i t Ht) in Hst. done.
    + done.
    + by intros w ?%elem_of_nil.
    + intros i t Ht. unfold block. by rewrite (Hfresh i t Ht).
    + intros i t e Ht Hst. rewrite (Hfresh i t Ht) in Hst. done.
    + intros Hret i t Ht. destruct es; [by destruct i|done].
    + intros Hpen. destruct es as [|e es']; [done|]. by exists 0, (fresh e).
    + intros e He. by destruct es.
    + apply initial_requests.
    + intros q (e & -> & He)%list_elem_of_fmap. simpl.
      rewrite <- list_fmap_compose. apply list_elem_of_fmap. by exists e.
Qed.


(** Every state of a run of [update] satisfies the invariant. *)
Lemma run_invariant ambient h layersList tr σ :
  run tr (update ambient h layersList) = Some σ → invariant ambient h layersList σ.
Proof.
  pose proof (update_invariant ambient h layersList) as I.
  revert I. generalize (update ambient h layersList).
  induction tr as [|[i r] tr IH]; intros σ0 I; simpl.
  - by intros [= <-].
  - destruct (deliver i r σ0) as [σ1|] eqn:Hd; simpl; [|done].
    apply IH. by eapply invariant_deliver.
Qed.

(** In a run each [processLayers] goes through the answers delivered to
    it, whatever happens to the others in between. *)
Lemma run_task tr : ∀ σ σ' i t,
  run tr σ = Some σ' → tasks σ !! i = Some t →
  tasks σ' !! i = Some (feed t (delivered i tr)).1.
Proof.
  induction tr as [|[j r] tr IH]; intros σ σ' i t; simpl.
  - by intros [= <-].
  - destruct (deliver j r σ) as [σ1|] eqn:Hd; simpl; [|done].
    apply deliver_inv in Hd as (tj & Hj & Hs & ->). intros Hrun Hi.
    unfold delivered. cbn [omap list_omap fst snd].
    destruct (decide (j = i)) as [->|Hne].
    + assert (tj = t) as -> by congruence.
      fold (delivered i tr). rewrite feed_cons by done.
      pose proof (IH _ _ i (processLayers_resume t r).1 Hrun) as Hrec.
      cbn [tasks] in Hrec.
      rewrite list_lookup_insert_eq in Hrec by (by eapply lookup_lt_Some).
      rewrite (Hrec eq_refl).
      destruct (processLayers_resume t r) as [t1 e1]. simpl.
      by destruct (feed t1 (delivered i tr)).
    + fold (delivered i tr). apply (IH _ _ i t Hrun). cbn [tasks].
      by rewrite list_lookup_insert_ne.
Qed.

Lemma run_length tr : ∀ σ σ', run tr σ = Some σ' → length (tasks σ') = length (tasks σ).
Proof.
  induction tr as [|[j r] tr IH]; intros σ σ'; simpl.
  - by intros [= <-].
  - destruct (deliver j r σ) as [σ1|] eqn:Hd; simpl; [|done].
    apply deliver_inv in Hd as (tj & Hj & Hs & ->). intros Hrun.
    rewrite (IH _ _ Hrun). cbn [tasks]. apply length_insert.
Qed.

Lemma run_task_inv tr σ σ' i t' :
  run tr σ = Some σ' → tasks σ' !! i = Some t' →
  ∃ t, tasks σ !! i = Some t ∧ t' = (feed t (delivered i tr)).1.
Proof.
  intros Hrun Hi. destruct (tasks σ !! i) as [t|] eqn:Ht.
  - exists t. split; [done|]. rewrite (run_task _ _ _ _ _ Hrun Ht) in Hi. congruence.
  - apply lookup_ge_None in Ht. apply lookup_lt_Some in Hi.
    rewrite (run_length _ _ _ Hrun) in Hi. lia.
Qed.


(** The tasks [update] launches are fresh. *)
Lemma update_fresh ambient h layersList i t :
  tasks (update ambient h layersList) !! i = Some t →
  t = Task (layerName t) (listeners t) None VUndefined Awaiting.
Proof.
  pose proof (update_spec ambient h layersList) as Hu.
  destruct (group ambient h layersList (Grouping [] [])) as [g [e|]].
  - rewrite Hu. simpl. by rewrite lookup_nil.
  - cbn zeta in Hu. rewrite Hu. simpl. by intros (e & _ & ->)%fresh_lookup.
Qed.


(** While [update] is pending a request is in flight: when none is, it has
    returned or thrown. *)
Lemma run_quiescent ambient h layersList tr σ :
  run tr (update ambient h layersList) = Some σ → quiescent σ → promise σ ≠ Pending.
Proof.
  intros Hrun Hq Hp. pose proof (run_invariant _ _ _ _ _ Hrun) as I.
  destruct (inv_pending I Hp) as (i & t & Hi & Hs).
  apply (Hq t); [|done]. by eapply list_elem_of_lookup_2.
Qed.

(** * The claims *)

Lemma string_app_assoc (a b c : string) : (a +:+ b) +:+ c = a +:+ b +:+ c.
Proof.
  induction a as [|x a IH]; [done|].
  change (String x ((a +:+ b) +:+ c) = String x (a +:+ b +:+ c)). by rewrite IH.
Qed.

(** ** The matcher *)

(** C2. For a string that [reg] accepts, with the components [r], [a] and
    [n], [extractLayerName] answers the bare layer name [n] when the account
    [a] is [?], and otherwise [arn:aws:lambda:<region>:a:layer:n], without
    the version suffix, where [<region>] is the ambient region when [r] is
    [?] and [r] otherwise. *)
Theorem extractLayerName_canonical ambient s r a n :
  reg_exec s = Some (Groups r a n) →
  s = layer_reference r a n
  ∧ extractLayerName ambient (VStr s) =
      (Some (if String.eqb a "?" then n
             else "arn:aws:lambda:" +:+ (if String.eqb r "?" then ambient else r)
                  +:+ ":" +:+ a +:+ ":layer:" +:+ n),
       []).
Proof.
  intros H. split.
  - by apply reg_exec_sound in H as [-> _].
  - by rewrite (extractLayerName_matched _ _ _ H).
Qed.

Lemma extractLayerName_canonical_witness :
  foo_reference = layer_reference "?" "123" "foo"
  ∧ extractLayerName "us-east-1" (VStr foo_reference) =
      (Some "arn:aws:lambda:us-east-1:123:layer:foo", []).
Proof.
  exact (extractLayerName_canonical "us-east-1" foo_reference "?" "123" "foo" eq_refl).
Defined.

(** C9. A string that [reg] accepts ends with the sentinel as its version
    component; the test for an explicit numeric version is false on
    whatever a capture group can hold (a string, or [undefined]), so that
    branch is never taken: [extractLayerName] answers a target, which is not
    empty, and writes nothing to the debug sink. *)
Theorem matched_is_eligible ambient s g :
  reg_exec s = Some g →
  (∃ head, s = head +:+ ":" +:+ sentinel)
  ∧ (∀ v, is_string v = true ∨ v = VUndefined → explicit_version v = false)
  ∧ ∃ k, extractLayerName ambient (VStr s) = (Some k, []) ∧ k ≠ "".
Proof.
  intros H. split_and!.
  - apply reg_exec_sound in H as [-> _].
    exists ("arn:aws:lambda:" +:+ g_region g +:+ ":" +:+ g_accountId g +:+ ":layer:"
            +:+ g_layerName g).
    unfold layer_reference. by rewrite !string_app_assoc.
  - intros v [Hv| ->]; [|done]. destruct v; try done.
    unfold explicit_version, parseInt, parse_decimal.
    destruct (skip_spaces s0) as [|c s']; [done|].
    repeat (match goal with |- context [match ?x with _ => _ end] => destruct x end; try done).
  - pose proof (target_inv ambient (VStr s)) as Hinv. unfold target in Hinv.
    rewrite (extractLayerName_matched _ _ _ H) in *. eexists. split; [done|].
    destruct (Hinv _ eq_refl) as (_ & _ & _ & _ & Hk). intros Heq.
    by rewrite Heq in Hk.
Qed.

Lemma matched_is_eligible_witness :
  (∃ head, foo_reference = head +:+ ":" +:+ sentinel)
  ∧ (∀ v, is_string v = true ∨ v = VUndefined → explicit_version v = false)
  ∧ ∃ k, extractLayerName "us-east-1" (VStr foo_reference) = (Some k, []) ∧ k ≠ "".
Proof.
  exact (matched_is_eligible "us-east-1" foo_reference (Groups "?" "123" "foo") eq_refl).
Defined.

(** C10. On a falsy reference, the empty string, [null], [undefined],
    [false], [0] (and [NaN]), [extractLayerName] answers [undefined] and
    writes nothing to the debug sink. *)
Theorem falsy_is_skipped_silently ambient layer :
  truthy layer = false → extractLayerName ambient layer = (None, []).
Proof. intros H. unfold extractLayerName. by rewrite H. Qed.

Lemma falsy_is_skipped_silently_witness :
  extractLayerName "us-east-1" (VStr "") = (None, [])
  ∧ extractLayerName "us-east-1" VNull = (None, [])
  ∧ extractLayerName "us-east-1" VUndefined = (None, [])
  ∧ extractLayerName "us-east-1" (VBool false) = (None, [])
  ∧ extractLayerName "us-east-1" (VNum 0) = (None, []).
Proof.
  split_and!.
  - exact (falsy_is_skipped_silently "us-east-1" (VStr "") eq_refl).
  - exact (falsy_is_skipped_silently "us-east-1" VNull eq_refl).
  - exact (falsy_is_skipped_silently "us-east-1" VUndefined eq_refl).
  - exact (falsy_is_skipped_silently "us-east-1" (VBool false) eq_refl).
  - exact (falsy_is_skipped_silently "us-east-1" (VNum 0) eq_refl).
Defined.

(** ** The resolver *)

(** C3, as the code has it.  Against pages that hold at least one record
    (each page but the last carrying a continuation marker),
    [processLayers] is fulfilled with a record of the greatest version of
    all pages, and of the records that share it, it keeps the one seen
    last: a later record replaces the current one unless the current one has
    a strictly greater version. *)
Theorem resolve_keeps_last_max name ls pages :
  paged pages = true → records pages ≠ [] →
  ∃ r, latestVersion (resolve name ls pages).1 = Some r
       ∧ settled (resolve name ls pages).1 = Fulfilled
       ∧ r ∈ records pages
       ∧ (∀ x, x ∈ records pages → (Version x ≤ Version r)%Z)
       ∧ last_max r (records pages)
       ∧ written (resolve name ls pages).2
         = map (λ l, (l, VStr (LayerVersionArn r))) ls.
Proof.
  intros (front & last & -> & Hfront & Hlast)%paged_split Hne.
  destruct (resolve_pages name ls front last Hfront Hlast) as (_ & _ & Hv & Hs & _ & Hw).
  destruct (fold_left pick (records (front ++ [last])) None) as [r|] eqn:E.
  - pose proof (fold_pick_last_max _ _ E) as Hmax.
    exists r. split_and!; [done..| | |done|done].
    + by apply last_max_elem.
    + intros x Hx. by eapply last_max_bound.
  - by apply fold_pick_None in E.
Qed.

Lemma resolve_keeps_last_max_witness :
  ∃ r, latestVersion (resolve "foo" [Listener 0 0] two_pages).1 = Some r
       ∧ settled (resolve "foo" [Listener 0 0] two_pages).1 = Fulfilled
       ∧ r ∈ records two_pages
       ∧ (∀ x, x ∈ records two_pages → (Version x ≤ Version r)%Z)
       ∧ last_max r (records two_pages)
       ∧ written (resolve "foo" [Listener 0 0] two_pages).2
         = map (λ l, (l, VStr (LayerVersionArn r))) [Listener 0 0].
Proof.
  apply (resolve_keeps_last_max "foo" [Listener 0 0] two_pages); [reflexivity|discriminate].
Defined.

(** C3, as the specification words it, fails: of two records of the same
    version the code keeps the second, not the first. *)
Lemma ties_keep_the_later_record :
  latestVersion (resolve "foo" [] tied_page).1 = Some (record 5 "second")
  ∧ first_seen_max tied_page = Some (record 5 "first")
  ∧ latestVersion (resolve "foo" [] tied_page).1 ≠ first_seen_max tied_page.
Proof. by split_and!. Qed.

(** The pages [[{v:1},{v:5}]] then [[{v:3}]] resolve to [v:5]. *)
Example resolve_two_pages :
  latestVersion (resolve "foo" [] two_pages).1 = Some (record 5 "A5").
Proof. reflexivity. Qed.

(** C4. Against N pages, each with a continuation marker except the last,
    [processLayers] calls [provider.request] exactly N times and settles:
    the first call has no marker and each further one has the marker of
    the page before; it is still awaiting after each page before the last.
    Resumed with a page, it issues the next call if and only if the page
    carries a (truthy) [NextMarker], and settles otherwise. *)
Theorem resolve_calls_once_per_page name ls pages :
  paged pages = true →
  settled (resolve name ls pages).1 ≠ Awaiting
  ∧ length (issued (resolve name ls pages).2) = length pages
  ∧ issued (resolve name ls pages).2
    = (name, VUndefined) :: ((λ p, (name, NextMarker p)) <$> List.removelast pages)
  ∧ (∀ n, n < length pages → settled (resolve name ls (take n pages)).1 = Awaiting)
  ∧ (∀ t page, settled t = Awaiting →
       if truthy (NextMarker page)
       then issued (processLayers_resume t (Resolve page)).2 = [(layerName t, NextMarker page)]
            ∧ settled (processLayers_resume t (Resolve page)).1 = Awaiting
       else issued (processLayers_resume t (Resolve page)).2 = []
            ∧ settled (processLayers_resume t (Resolve page)).1 ≠ Awaiting).
Proof.
  intros (front & last & -> & Hfront & Hlast)%paged_split.
  destruct (resolve_pages name ls front last Hfront Hlast) as (_ & _ & _ & Hs & Hq & _).
  split_and!.
  - rewrite Hs. by destruct (fold_left pick _ _).
  - rewrite Hq. rewrite length_app. simpl. rewrite length_fmap. lia.
  - by rewrite Hq, List.removelast_last.
  - intros n Hn. rewrite length_app in Hn. simpl in Hn.
    rewrite take_app_le by lia. unfold resolve, processLayers_start.
    destruct (feed_marked (Task name ls None VUndefined Awaiting) (take n front) eq_refl)
      as (Hst & _).
    { by apply Forall_take. }
    by destruct (feed _ (Resolve <$> take n front)).
  - intros t page Ht. simpl. destruct (truthy (NextMarker page)); [done|].
    by destruct (fold_left pick (LayerVersions page) (latestVersion t)).
Qed.

Lemma resolve_calls_once_per_page_witness :
  settled (resolve "foo" [] two_pages).1 ≠ Awaiting
  ∧ length (issued (resolve "foo" [] two_pages).2) = 2
  ∧ issued (resolve "foo" [] two_pages).2 = [("foo", VUndefined); ("foo", VStr "next")].
Proof.
  destruct (resolve_calls_once_per_page "foo" [] two_pages eq_refl) as (H1 & H2 & H3 & _).
  exact (conj H1 (conj H2 H3)).
Defined.

(** ** The whole pass *)

Lemma last_char_app a b : b ≠ "" → last_char (a +:+ b) = last_char b.
Proof.
  intros Hb. induction a as [|x a IH]; [done|].
  change (last_char (String x (a +:+ b)) = last_char b). simpl.
  destruct (a +:+ b) eqn:E; [|done].
  destruct a as [|y a']; [destruct b as [|y b']; [done|]|]; inversion E.
Qed.

Lemma numeral_last d : ∀ acc n,
  d ≠ "" → numeral acc d = Some n → ∃ c, last_char d = Some c ∧ is_Some (digit_of c).
Proof.
  induction d as [|c d IH]; intros acc n Hne; [done|]. simpl.
  destruct (digit_of c) as [x|] eqn:Hc; [|done].
  destruct d as [|c' d'].
  - intros _. exists c. by rewrite Hc.
  - intros H. by apply IH in H.
Qed.

(** A reference that ends with a number as its version is not accepted by
    [reg]. *)
Lemma numeric_version_unmatched head d n :
  d ≠ "" → numeral 0 d = Some n → reg_exec (head +:+ ":" +:+ d) = None.
Proof.
  intros Hd Hn. destruct (reg_exec _) as [g|] eqn:E; [|done].
  apply reg_exec_sound in E as [E _].
  apply (f_equal last_char) in E.
  rewrite (last_char_app head (":" +:+ d)), (last_char_app ":" d) in E by done.
  assert (Href : layer_reference (g_region g) (g_accountId g) (g_layerName g)
                 = ("arn:aws:lambda:" +:+ g_region g +:+ ":" +:+ g_accountId g +:+ ":layer:"
                    +:+ g_layerName g) +:+ ":" +:+ sentinel)
    by (unfold layer_reference; by rewrite !string_app_assoc).
  rewrite Href, last_char_app in E by done.
  destruct (numeral_last d 0%N n Hd Hn) as (c & Hc & Hdig).
  rewrite Hc in E. injection E as ->. by destruct Hdig.
Qed.

(** A place whose reference has no target is in no group: no listener
    writes to it. *)
Lemma no_target_untouched ambient h layersList σ l v :
  invariant ambient h layersList σ →
  read h l = Some v → target ambient v = None →
  read (heap σ) l = Some v ∧ ∀ w, w ∈ writes σ → w.1 ≠ l.
Proof.
  intros I Hv Ht.
  assert (Hnone : ∀ i t, tasks σ !! i = Some t → l ∉ listeners t).
  { intros i t Hi Hl. destruct (inv_refers I i t l Hi Hl) as [_ (v' & Hv' & Ht')].
    congruence. }
  split.
  - rewrite <- Hv. apply (inv_untouched I). intros i t Hi _. by apply (Hnone i t).
  - intros w Hw <-. destruct (inv_writes I w Hw) as (i & t & Hi & _ & Hl).
    by apply (Hnone i t).
Qed.

(** The places of a [processLayers] that is not fulfilled are as they were
    at the start. *)
Lemma unfulfilled_untouched ambient h layersList σ i t l :
  invariant ambient h layersList σ →
  tasks σ !! i = Some t → settled t ≠ Fulfilled → l ∈ listeners t →
  read (heap σ) l = read h l ∧ ∀ w, w ∈ writes σ → w.1 ≠ l.
Proof.
  intros I Hi Hs Hl.
  assert (Hnone : ∀ j t', tasks σ !! j = Some t' → settled t' = Fulfilled → l ∉ listeners t').
  { intros j t' Hj Hs' Hl'.
    assert (i = j) as -> by (by eapply (listeners_disjoint ambient h layersList σ i j t t' l)).
    congruence. }
  split.
  - by apply (inv_untouched I).
  - intros w Hw <-. destruct (inv_writes I w Hw) as (j & t' & Hj & Hs' & Hl').
    by apply (Hnone j t').
Qed.

(** C7. A reference that is no string, or that [reg] does not accept, in
    particular one that ends with an explicit numeric version and not with
    the sentinel, is not eligible: [extractLayerName] answers [undefined],
    and throughout every run of [update] the place that holds it keeps it
    and no listener writes there. *)
Theorem not_eligible_is_untouched ambient h layersList l v :
  read h l = Some v →
  is_string v = false
  ∨ (∃ s, v = VStr s ∧ reg_exec s = None)
  ∨ (∃ head d n, d ≠ "" ∧ numeral 0 d = Some n ∧ v = VStr (head +:+ ":" +:+ d)) →
  (extractLayerName ambient v).1 = None
  ∧ ∀ tr σ, run tr (update ambient h layersList) = Some σ →
      read (heap σ) l = Some v ∧ ∀ w, w ∈ writes σ → w.1 ≠ l.
Proof.
  intros Hv Hcases.
  assert (Ht : target ambient v = None).
  { unfold target. destruct Hcases as [Hs|[(s & -> & Hs)|(head & d & n & Hd & Hn & ->)]].
    - by apply extractLayerName_not_string.
    - by apply extractLayerName_unmatched.
    - apply extractLayerName_unmatched. by eapply numeric_version_unmatched. }
  split; [done|]. intros tr σ Hrun.
  eapply no_target_untouched; [by eapply run_invariant|done..].
Qed.

Lemma not_eligible_is_untouched_witness :
  (extractLayerName "us-east-1" (VStr "arn:aws:lambda:eu-west-1:123:layer:baz:7")).1 = None
  ∧ ∀ tr σ, run tr (update "us-east-1" two_layers [VArr 0]) = Some σ →
      read (heap σ) (Listener 0 2) = Some (VStr "arn:aws:lambda:eu-west-1:123:layer:baz:7")
      ∧ ∀ w, w ∈ writes σ → w.1 ≠ Listener 0 2.
Proof.
  apply (not_eligible_is_untouched "us-east-1" two_layers [VArr 0] (Listener 0 2)).
  - reflexivity.
  - right. right. exists "arn:aws:lambda:eu-west-1:123:layer:baz", "7", 7%N.
    split_and!; [discriminate|reflexivity|reflexivity].
Defined.

Lemma resolve_fst name ls pages :
  (resolve name ls pages).1
  = (feed (Task name ls None VUndefined Awaiting) (Resolve <$> pages)).1.
Proof.
  unfold resolve, processLayers_start. by destruct (feed _ _).
Qed.

(** C5. When the pages delivered to the [processLayers] of a target hold
    no version at all, it is rejected with the error [Lambda layer <name>
    has no version available.], [update] throws, and every place of the
    group of that target keeps what it held: no listener writes there. *)
Theorem no_version_is_fatal ambient h layersList tr σ i t0 pages :
  tasks (update ambient h layersList) !! i = Some t0 →
  run tr (update ambient h layersList) = Some σ →
  delivered i tr = Resolve <$> pages →
  paged pages = true → records pages = [] →
  ∃ t, tasks σ !! i = Some t
       ∧ settled t
         = Rejected (Error ("Lambda layer " +:+ layerName t0 +:+ " has no version available."))
       ∧ (∃ e, promise σ = Threw e)
       ∧ ∀ l, l ∈ listeners t0 →
           read (heap σ) l = read h l ∧ ∀ w, w ∈ writes σ → w.1 ≠ l.
Proof.
  intros Hi Hrun Hdel (front & last & -> & Hfront & Hlast)%paged_split Hrec.
  pose proof (run_invariant _ _ _ _ _ Hrun) as I.
  pose proof (run_task _ _ _ i t0 Hrun Hi) as Ht. rewrite Hdel in Ht.
  pose proof (feed_signature t0 (Resolve <$> front ++ [last])) as [Hn Hl].
  rewrite (update_fresh _ _ _ _ _ Hi), <- resolve_fst in Ht.
  destruct (resolve_pages (layerName t0) (listeners t0) front last Hfront Hlast)
    as (_ & Hls & _ & Hs & _).
  rewrite Hrec in Hs. simpl in Hs.
  eexists. split; [exact Ht|]. split; [exact Hs|]. split.
  - by eapply (inv_rejected I).
  - intros l Hin. eapply unfulfilled_untouched; [done|exact Ht|by rewrite Hs|by rewrite Hls].
Qed.

Lemma no_version_is_fatal_witness :
  ∃ t, tasks two_layers_after !! 1 = Some t
       ∧ settled t
         = Rejected (Error ("Lambda layer " +:+ layerName bar_task +:+ " has no version available."))
       ∧ (∃ e, promise two_layers_after = Threw e)
       ∧ ∀ l, l ∈ listeners bar_task →
           read (heap two_layers_after) l = read two_layers l
           ∧ ∀ w, w ∈ writes two_layers_after → w.1 ≠ l.
Proof.
  apply (no_version_is_fatal "us-east-1" two_layers [VArr 0] foo_then_bar two_layers_after
           1 bar_task [ {| LayerVersions := []; NextMarker := VUndefined |} ]);
    vm_compute; reflexivity.
Defined.

Lemma deliver_threw i r σ σ' e :
  promise σ = Threw e → deliver i r σ = Some σ' → promise σ' = Threw e.
Proof.
  intros Hp (t & _ & _ & ->)%deliver_inv. cbn [promise]. rewrite Hp.
  by destruct (settled _).
Qed.

Lemma run_threw tr : ∀ σ σ' e,
  promise σ = Threw e → run tr σ = Some σ' → promise σ' = Threw e.
Proof.
  induction tr as [|[i r] tr IH]; intros σ σ' e Hp; simpl.
  - by intros [= <-].
  - destruct (deliver i r σ) as [σ1|] eqn:Hd; simpl; [|done].
    apply IH. by eapply deliver_threw.
Qed.




Lemma forEach_no_target ambient a elems : ∀ idx g,
  (∀ v, v ∈ elems → target ambient v = None) →
  ∃ said, forEach ambient a idx elems g
          = (Grouping (layerAssociation g) (notes g ++ said), None).
Proof.
  induction elems as [|layer rest IH]; intros idx g Hnone; simpl.
  - exists []. rewrite app_nil_r. by destruct g.
  - rewrite callback_spec. cbn zeta. rewrite (Hnone layer) by left.
    destruct (IH (S idx)
                (Grouping (layerAssociation g)
                          (notes g ++ (extractLayerName ambient layer).2)))
      as [said Hsaid].
    { intros v Hv. apply Hnone. by right. }
    rewrite Hsaid. simpl. eexists. by rewrite <- app_assoc.
Qed.

Lemma group_no_target ambient h layersList : ∀ g,
  (∀ a v, VArr a ∈ layersList → v ∈ array h a → target ambient v = None) →
  ∃ said, group ambient h layersList g
          = (Grouping (layerAssociation g) (notes g ++ said), None).
Proof.
  induction layersList as [|x rest IH]; intros g Hnone.
  - exists []. simpl. rewrite app_nil_r. by destruct g.
  - assert (Hrest : ∀ a v, VArr a ∈ rest → v ∈ array h a → target ambient v = None).
    { intros a v Ha. apply Hnone. by right. }
    destruct (isArray x) eqn:Hx.
    + destruct x as [| | | | | |a|]; try done. simpl.
      destruct (forEach_no_target ambient a (array h a) 0 g) as [said1 ->].
      { intros v. apply Hnone. left. }
      destruct (IH (Grouping (layerAssociation g) (notes g ++ said1)) Hrest) as [said2 ->].
      simpl. eexists. by rewrite <- app_assoc.
    + assert (Hg : group ambient h (x :: rest) g = group ambient h rest g)
        by (by destruct x).
      rewrite Hg. by apply IH.
Qed.

(** An entry of [layersList] that is no array is skipped without a trace. *)
Lemma update_skips_non_array ambient h x layersList :
  isArray x = false →
  update ambient h (x :: layersList) = update ambient h layersList.
Proof. intros Hx. unfold update. by destruct x. Qed.

(** C8. When no element of the arrays of [layersList] is an eligible
    reference, whatever the entries that are no array ([undefined], [null],
    any other value), [update] returns: it launches no [processLayers],
    calls [provider.request] not once, calls no listener and leaves the
    heap as it is; nothing is pending after it.  What it writes to the debug
    sink are the lines of [extractLayerName] on the elements of the arrays;
    an entry that is no array leaves no line. *)
Theorem nothing_eligible_is_a_no_op ambient h layersList :
  (∀ l k, ¬ refers ambient h layersList l k) →
  promise (update ambient h layersList) = Returned
  ∧ tasks (update ambient h layersList) = []
  ∧ requests (update ambient h layersList) = []
  ∧ writes (update ambient h layersList) = []
  ∧ heap (update ambient h layersList) = h
  ∧ (∀ i r, deliver i r (update ambient h layersList) = None)
  ∧ (∀ d, d ∈ debugLog (update ambient h layersList) →
       ∃ a v, VArr a ∈ layersList ∧ v ∈ array h a ∧ d ∈ (extractLayerName ambient v).2)
  ∧ (∀ x, isArray x = false →
       update ambient h (x :: layersList) = update ambient h layersList).
Proof.
  intros Hnone.
  assert (Hnot : ∀ a v, VArr a ∈ layersList → v ∈ array h a → target ambient v = None).
  { intros a v Ha [j Hj]%list_elem_of_lookup.
    destruct (target ambient v) as [k|] eqn:Hk; [|done].
    destruct (Hnone (Listener a j) k). split; [done|]. exists v. by rewrite read_array. }
  destruct (group_no_target ambient h layersList (Grouping [] []) Hnot) as [said Hg].
  pose proof (update_spec ambient h layersList) as Hu. rewrite Hg in Hu.
  pose proof (group_spec _ _ _ _ _ _ Hg) as (_ & Hnotes & _).
  cbn in Hu. rewrite app_nil_r in Hu. rewrite Hu.
  split_and!; try done.
  - intros d Hd. simpl in Hd, Hnotes.
    destruct (Hnotes d Hd) as [?%elem_of_nil|?]; done.
  - intros x Hx. rewrite <- Hu. by apply update_skips_non_array.
Qed.

Lemma nothing_eligible_is_a_no_op_witness :
  promise (update "us-east-1" no_reference no_reference_list) = Returned
  ∧ requests (update "us-east-1" no_reference no_reference_list) = []
  ∧ heap (update "us-east-1" no_reference no_reference_list) = no_reference.
Proof.
  assert (Hnone : ∀ l k, ¬ refers "us-east-1" no_reference no_reference_list l k).
  { intros [a j] k [Ha (v & Hv & Hk)]. simpl in Ha.
    destruct a as [|a]; [|by destruct a].
    destruct j as [|[|[|j]]]; simpl in Hv; [..|by destruct j];
      injection Hv as <-; done. }
  destruct (nothing_eligible_is_a_no_op "us-east-1" no_reference no_reference_list Hnone)
    as (H1 & _ & H2 & _ & H3 & _).
  exact (conj H1 (conj H2 H3)).
Defined.



(** C1 fails on the code: a reference to a layer of the local account
    that is named [constructor] is eligible, with the target [constructor],
    and [update] throws [TypeError] in its grouping loop: it calls the
    provider not once and the place keeps the reference. *)
Theorem inherited_name_breaks_update :
  refers "us-east-1" [[VStr constructor_reference]] [VArr 0] (Listener 0 0) "constructor"
  ∧ target "us-east-1" (VStr constructor_reference) = Some "constructor"
  ∧ update "us-east-1" [[VStr constructor_reference]] [VArr 0]
    = State [[VStr constructor_reference]] [] [] [] [] (Threw thrown)
  ∧ ∀ tr σ, run tr (update "us-east-1" [[VStr constructor_reference]] [VArr 0]) = Some σ →
      requests σ = [] ∧ writes σ = []
      ∧ read (heap σ) (Listener 0 0) = Some (VStr constructor_reference).
Proof.
  split_and!; [| reflexivity | reflexivity |].
  - split; [by left|]. by exists (VStr constructor_reference).
  - intros [|[i r] tr] σ; simpl.
    + by intros [= <-].
    + by destruct i.
Qed.

(** The example of the specification: one function with the reference to
    [foo], the region [us-east-1], the versions 1 and 2: the slot ends up
    holding the ARN of version 2. *)
Example end_to_end :
  heap <$> run [(0, Resolve {| LayerVersions := [record 1 "A1"; record 2 "A2"];
                              NextMarker := VUndefined |})]
             (update "us-east-1" [[VStr foo_reference]] [VUndefined; VArr 0])
  = Some [[VStr "A2"]].
Proof. reflexivity. Qed.

(** An array that is the layers of two functions is walked twice: each of
    its eligible places gets two listeners, and is written twice. *)
Example shared_array_is_written_twice :
  writes <$> run [(0, Resolve {| LayerVersions := [record 2 "A2"]; NextMarker := VNull |})]
               (update "us-east-1" [[VStr foo_reference]] [VArr 0; VArr 0])
  = Some [(Listener 0 0, VStr "A2"); (Listener 0 0, VStr "A2")].
Proof. reflexivity. Qed.

(* ===================================================================== *)
(** * Further properties *)

(** ** What [reg] accepts *)

(** [reg] accepts a string exactly when it is a layer reference built from
    three components, each non-empty and without a colon, and its groups
    are then these components: building a reference and matching it are
    inverse to each other. *)
Theorem reg_parses_what_layer_reference_builds s r a n :
  reg_exec s = Some (Groups r a n)
  ↔ s = layer_reference r a n ∧ component r ∧ component a ∧ component n.
Proof.
  split.
  - intros H. by apply reg_exec_sound in H.
  - intros (-> & Hr & Ha & Hn). by apply reg_exec_complete.
Qed.

Lemma reg_parses_what_layer_reference_builds_witness :
  reg_exec foo_reference = Some (Groups "?" "123" "foo")
  ∧ reg_exec (layer_reference "eu-west-1" "123" "bar") = Some (Groups "eu-west-1" "123" "bar").
Proof.
  split.
  - apply (reg_parses_what_layer_reference_builds foo_reference "?" "123" "foo").
    by repeat split.
  - apply (reg_parses_what_layer_reference_builds _ "eu-west-1" "123" "bar").
    by repeat split.
Defined.

(** ** When the grouping loop throws *)

Lemma add_keys o k l x :
  x ∈ (add o k l).*1 → x ∈ o.*1 ∨ (x = k ∧ own o k = None).
Proof.
  unfold add. destruct (own o k) as [ls|] eqn:E.
  - rewrite push_keys. by left.
  - rewrite fmap_app. intros [?|Hx%list_elem_of_singleton]%elem_of_app; [by left|].
    right. by split.
Qed.

Lemma forEach_keys ambient a elems : ∀ idx g g' err,
  forEach ambient a idx elems g = (g', err) →
  (∀ k, k ∈ (layerAssociation g).*1 → k ∉ Object_prototype) →
  ∀ k, k ∈ (layerAssociation g').*1 → k ∉ Object_prototype.
Proof.
  induction elems as [|layer rest IH]; intros idx g g' err; simpl.
  - by intros [= <- <-].
  - rewrite callback_spec. cbn zeta.
    destruct (target ambient layer) as [k0|];
      [|intros Hrest Hg; eapply IH; [exact Hrest|exact Hg]].
    destruct (bool_decide _) eqn:Hd.
    + by intros [= <- <-].
    + apply bool_decide_eq_false in Hd. intros Hrest Hg.
      eapply IH; [exact Hrest|]. simpl.
      intros k [Hk|[-> Hown]]%add_keys; [by apply Hg|].
      intros Hp. by apply Hd.
Qed.

Lemma group_keys ambient h layersList : ∀ g g' err,
  group ambient h layersList g = (g', err) →
  (∀ k, k ∈ (layerAssociation g).*1 → k ∉ Object_prototype) →
  ∀ k, k ∈ (layerAssociation g').*1 → k ∉ Object_prototype.
Proof.
  induction layersList as [|x rest IH]; intros g g' err.
  - simpl. by intros [= <- <-].
  - destruct (isArray x) eqn:Hx.
    + destruct x as [| | | | | |a|]; try done. simpl.
      destruct (forEach ambient a 0 (array h a) g) as [g1 [e|]] eqn:E1.
      * intros [= <- <-]. by eapply forEach_keys.
      * intros Hrest Hg. eapply IH; [exact Hrest|]. by eapply forEach_keys.
    + assert (Hg : group ambient h (x :: rest) g = group ambient h rest g)
        by (by destruct x).
      rewrite Hg. apply IH.
Qed.

(** [update] throws before its [await] exactly when the target of some
    eligible reference is a name that [{}] inherits from
    [Object.prototype]; what it throws then is the [TypeError] of
    [listeners.push], and it has launched no [processLayers], called the
    provider not once and written nothing. *)
Theorem update_throws_on_inherited_names ambient h layersList :
  ((∃ e, promise (update ambient h layersList) = Threw e)
   ↔ ∃ l k, refers ambient h layersList l k ∧ k ∈ Object_prototype)
  ∧ ∀ e, promise (update ambient h layersList) = Threw e →
      e = thrown
      ∧ tasks (update ambient h layersList) = []
      ∧ requests (update ambient h layersList) = []
      ∧ writes (update ambient h layersList) = []
      ∧ heap (update ambient h layersList) = h.
Proof.
  pose proof (update_spec ambient h layersList) as Hu.
  destruct (group ambient h layersList (Grouping [] [])) as [g [e|]] eqn:Hg.
  - rewrite Hu. apply group_spec in Hg as (_ & _ & -> & l & k & Hr & Hp). split.
    + split; [|by eexists]. intros _. by exists l, k.
    + by intros e [= <-].
  - cbn zeta in Hu. rewrite Hu. cbn [promise].
    assert (Hno : ∀ e, match entries (layerAssociation g) with
                       | [] => Returned | _ :: _ => Pending end ≠ Threw e)
      by (intros e; by destruct (entries _)).
    split; [|by intros e ?%Hno].
    split; [by intros [e ?%Hno]|].
    intros (l & k & Hr & Hp). exfalso.
    pose proof (group_keys _ _ _ _ _ _ Hg) as Hkeys.
    apply group_spec in Hg as (_ & _ & Hholds).
    destruct (proj2 (Hholds k l) (or_intror Hr)) as (ls & Hin & _).
    apply (Hkeys ltac:(by intros ? ?%elem_of_nil) k); [|done].
    apply list_elem_of_fmap. by exists (k, ls).
Qed.

(** ** Each target once *)



(** ** The heap along a run *)

Lemma fold_invoke_length ws : ∀ h, length (fold_left invoke ws h) = length h.
Proof.
  induction ws as [|w ws IH]; intros h; simpl; [done|].
  by rewrite IH, invoke_length.
Qed.

Lemma run_heap_length tr : ∀ σ σ', run tr σ = Some σ' → length (heap σ') = length (heap σ).
Proof.
  induction tr as [|[j r] tr IH]; intros σ σ'; simpl.
  - by intros [= <-].
  - destruct (deliver j r σ) as [σ1|] eqn:Hd; simpl; [|done].
    apply deliver_inv in Hd as (tj & Hj & Hs & ->). intros Hrun.
    rewrite (IH _ _ Hrun). cbn [heap]. apply fold_invoke_length.
Qed.

Lemma update_heap ambient h layersList : heap (update ambient h layersList) = h.
Proof.
  pose proof (update_spec ambient h layersList) as Hu.
  destruct (group ambient h layersList (Grouping [] [])) as [g [e|]];
    cbn zeta in Hu; by rewrite Hu.
Qed.

(** Two heaps of the same shape that read alike everywhere are equal. *)
Lemma heap_ext (h1 h2 : list (list value)) :
  length h1 = length h2 → (∀ l, read h1 l = read h2 l) → h1 = h2.
Proof.
  intros Hlen Hread. apply list_eq. intros a.
  destruct (h1 !! a) as [arr1|] eqn:E1.
  - destruct (lookup_lt_is_Some_2 h2 a) as [arr2 E2].
    { rewrite <- Hlen. by eapply lookup_lt_Some. }
    rewrite E2. f_equal. apply list_eq. intros i.
    specialize (Hread (Listener a i)). unfold read in Hread. simpl in Hread.
    by rewrite E1, E2 in Hread.
  - symmetry. apply lookup_ge_None. rewrite <- Hlen. by apply lookup_ge_None.
Qed.

(** In a run no listener makes an array longer or shorter, and the heap
    holds the same arrays: every write is within the bounds the array had
    when [forEach] walked it. *)
Theorem arrays_keep_their_length ambient h layersList tr σ :
  run tr (update ambient h layersList) = Some σ →
  length (heap σ) = length h
  ∧ ∀ a, length (array (heap σ) a) = length (array h a).
Proof.
  intros Hrun. pose proof (run_invariant _ _ _ _ _ Hrun) as I. split.
  - by rewrite (run_heap_length _ _ _ Hrun), update_heap.
  - intros a.
    assert (Hiff : ∀ i, i < length (array (heap σ) a) ↔ i < length (array h a)).
    { intros i. rewrite <- !lookup_lt_is_Some.
      pose proof (inv_shape I (Listener a i)) as Hs. by rewrite !read_array in Hs. }
    destruct (decide (length (array (heap σ) a) ≤ length (array h a))) as [Hle|Hgt].
    + destruct (decide (length (array (heap σ) a) = length (array h a))); [done|].
      pose proof (proj2 (Hiff (length (array (heap σ) a)))). lia.
    + pose proof (proj1 (Hiff (length (array h a)))). lia.
Qed.

Lemma arrays_keep_their_length_witness :
  length (heap two_layers_after) = length two_layers
  ∧ ∀ a, length (array (heap two_layers_after) a) = length (array two_layers a).
Proof.
  apply (arrays_keep_their_length "us-east-1" two_layers [VArr 0] foo_then_bar).
  vm_compute; reflexivity.
Defined.

(** ** The order of the answers *)

Lemma fulfilled_owner_dec (ts : list task) (l : listener) :
  Decision (∃ i t, ts !! i = Some t ∧ settled t = Fulfilled ∧ l ∈ listeners t).
Proof.
  destruct (decide (Exists (λ t, is_fulfilled t = true ∧ l ∈ listeners t) ts)) as [H|H].
  - left. apply Exists_exists in H as (t & [i Hi]%list_elem_of_lookup & Hf & Hl).
    exists i, t. split_and!; [done| |done].
    unfold is_fulfilled in Hf. by destruct (settled t).
  - right. intros (i & t & Hi & Hs & Hl). apply H, Exists_exists.
    exists t. split_and!; [by eapply list_elem_of_lookup_2| |done].
    unfold is_fulfilled. by rewrite Hs.
Qed.

(** The heap of a state of a run is decided by its tasks. *)
Lemma heap_of_tasks ambient h layersList σ σ' :
  invariant ambient h layersList σ → invariant ambient h layersList σ' →
  tasks σ = tasks σ' → length (heap σ) = length (heap σ') → heap σ = heap σ'.
Proof.
  intros I I' Hts Hlen. apply heap_ext; [done|]. intros l.
  destruct (fulfilled_owner_dec (tasks σ) l) as [(i & t & Hi & Hs & Hl)|Hnone].
  - destruct (inv_fulfilled I i t Hi Hs) as (v & Hv & Hread).
    rewrite Hts in Hi. destruct (inv_fulfilled I' i t Hi Hs) as (v' & Hv' & Hread').
    rewrite (Hread l Hl), (Hread' l Hl). congruence.
  - rewrite (inv_untouched I), (inv_untouched I'); [done| |].
    + rewrite <- Hts. intros i t Hi Hs Hl. apply Hnone. by exists i, t.
    + intros i t Hi Hs Hl. apply Hnone. by exists i, t.
Qed.

(** The order in which the answers to different targets arrive does not
    matter to the result: two runs of the same [update] that deliver the
    same answers to each [processLayers] leave the same heap and the same
    [processLayers]. *)
Theorem interleaving_does_not_matter ambient h layersList tr tr' σ σ' :
  run tr (update ambient h layersList) = Some σ →
  run tr' (update ambient h layersList) = Some σ' →
  (∀ i, delivered i tr = delivered i tr') →
  tasks σ = tasks σ' ∧ heap σ = heap σ'.
Proof.
  intros Hrun Hrun' Hsame.
  assert (Hts : tasks σ = tasks σ').
  { apply list_eq. intros i.
    destruct (tasks (update ambient h layersList) !! i) as [t0|] eqn:E.
    - rewrite (run_task _ _ _ _ _ Hrun E), (run_task _ _ _ _ _ Hrun' E). by rewrite Hsame.
    - apply lookup_ge_None in E.
      rewrite (proj2 (lookup_ge_None (tasks σ) i)), (proj2 (lookup_ge_None (tasks σ') i));
        [done|by rewrite (run_length _ _ _ Hrun')|by rewrite (run_length _ _ _ Hrun)]. }
  split; [done|].
  eapply heap_of_tasks; [by eapply run_invariant..|done|].
  by rewrite (run_heap_length _ _ _ Hrun), (run_heap_length _ _ _ Hrun').
Qed.

Lemma interleaving_does_not_matter_witness :
  tasks two_layers_after = tasks two_layers_after'
  ∧ heap two_layers_after = heap two_layers_after'.
Proof.
  apply (interleaving_does_not_matter "us-east-1" two_layers [VArr 0]
           foo_then_bar bar_then_foo).
  - vm_compute; reflexivity.
  - vm_compute; reflexivity.
  - intros i. destruct i as [|[|i]]; reflexivity.
Defined.

(** ** The requests of one target *)

Section requests.
Context (ambient : string) (h0 : list (list value)) (layersList : list value).

Lemma resume_issued_name t r q :
  q ∈ issued (processLayers_resume t r).2 → q.1 = layerName t.
Proof.
  destruct (resume_cases t r) as (_ & _ & Hcases). cbn zeta in Hcases.
  destruct Hcases as [(_ & _ & m & _ & ->)|[(? & _ & _ & ->)|(v & _ & _ & _ & ->)]];
    [|by intros ?%elem_of_nil..].
  by intros ->%list_elem_of_singleton.
Qed.

Lemma run_requests tr : ∀ σ σ' i t,
  invariant ambient h0 layersList σ → run tr σ = Some σ' → tasks σ !! i = Some t →
  filter (λ q, q.1 = layerName t) (requests σ')
  = filter (λ q, q.1 = layerName t) (requests σ) ++ issued (feed t (delivered i tr)).2.
Proof.
  induction tr as [|[j r] tr IH]; intros σ σ' i t I; simpl.
  - intros [= <-] _. by rewrite app_nil_r.
  - destruct (deliver j r σ) as [σ1|] eqn:Hd; simpl; [|done].
    pose proof (invariant_deliver _ _ _ _ _ _ _ I Hd) as I1.
    apply deliver_inv in Hd as (tj & Hj & Hs & ->). intros Hrun Hi.
    unfold delivered. cbn [omap list_omap fst snd]. fold (delivered i tr).
    destruct (decide (j = i)) as [->|Hne].
    + assert (tj = t) as -> by congruence.
      rewrite feed_cons by done.
      pose proof (IH _ _ i (processLayers_resume t r).1 I1 Hrun) as Hrec.
      cbn [tasks requests] in Hrec.
      rewrite list_lookup_insert_eq in Hrec by (by eapply lookup_lt_Some).
      specialize (Hrec eq_refl).
      destruct (resume_signature t r) as [Hn _]. rewrite Hn in Hrec.
      rewrite Hrec, filter_app.
      rewrite (filter_all _ (issued (processLayers_resume t r).2))
        by (intros q; apply resume_issued_name).
      destruct (processLayers_resume t r) as [t1 e1]. simpl.
      destruct (feed t1 (delivered i tr)) as [t2 e2]. simpl. by rewrite app_assoc.
    + pose proof (IH _ _ i t I1 Hrun) as Hrec. cbn [tasks requests] in Hrec.
      rewrite list_lookup_insert_ne in Hrec by done. rewrite (Hrec Hi), filter_app.
      rewrite (filter_none _ (issued (processLayers_resume tj r).2)); [by rewrite app_nil_r|].
      intros q Hq%resume_issued_name Hq'. apply Hne.
      eapply NoDup_lookup; [apply (inv_names I)| |]; rewrite list_lookup_fmap.
      * by rewrite Hj.
      * rewrite Hi. simpl. congruence.
Qed.
End requests.

Lemma filter_name_NoDup (es : list (string * list listener)) name :
  NoDup es.*1 → name ∈ es.*1 →
  filter (λ q : string * value, q.1 = name) ((λ e, (e.1, VUndefined)) <$> es)
  = [(name, VUndefined)].
Proof.
  induction es as [|e es IH]; intros Hnd Hin; [by apply elem_of_nil in Hin|].
  rewrite fmap_cons in Hnd, Hin. apply NoDup_cons in Hnd as [Hnot Hnd].
  rewrite fmap_cons, filter_cons. simpl. destruct (decide (e.1 = name)) as [Hname|Hne].
  - rewrite Hname. f_equal. apply filter_none.
    intros q (e' & -> & He')%list_elem_of_fmap Heq. simpl in Heq. apply Hnot.
    apply list_elem_of_fmap. exists e'. split; [congruence|done].
  - apply IH; [done|]. apply elem_of_cons in Hin as [->|]; done.
Qed.

Lemma update_requests ambient h layersList i t0 :
  tasks (update ambient h layersList) !! i = Some t0 →
  filter (λ q, q.1 = layerName t0) (requests (update ambient h layersList))
  = [(layerName t0, VUndefined)].
Proof.
  pose proof (update_invariant ambient h layersList) as I. revert I.
  pose proof (update_spec ambient h layersList) as Hu.
  destruct (group ambient h layersList (Grouping [] [])) as [g [e|]].
  - rewrite Hu. simpl. by rewrite lookup_nil.
  - cbn zeta in Hu. rewrite Hu. cbn [tasks requests]. intros I.
    intros (e & He & ->)%fresh_lookup. simpl.
    pose proof (inv_names I) as Hnd. cbn [tasks] in Hnd.
    rewrite <- list_fmap_compose in Hnd.
    apply filter_name_NoDup; [done|].
    apply list_elem_of_fmap. exists e. split; [done|]. by eapply list_elem_of_lookup_2.
Qed.



(** ** A request that fails *)

Lemma feed_rejected t front e :
  settled t = Awaiting → Forall (λ p, truthy (NextMarker p) = true) front →
  settled (feed t ((Resolve <$> front) ++ [Reject e])).1 = Rejected e
  ∧ issued (feed t ((Resolve <$> front) ++ [Reject e])).2
    = (λ p, (layerName t, NextMarker p)) <$> front
  ∧ written (feed t ((Resolve <$> front) ++ [Reject e])).2 = [].
Proof.
  intros Ht Hfront.
  destruct (feed_marked t front Ht Hfront) as (H1 & _ & H3 & H4).
  rewrite feed_app by done.
  destruct (feed t (Resolve <$> front)) as [t1 e1]. simpl in *.
  rewrite H1. simpl. by rewrite H3, H4, !app_nil_r.
Qed.

(** When the provider rejects a request of a [processLayers] with [e],
    after any number of pages that carried a marker, that [processLayers]
    is rejected with the same [e] and [update] throws; the request is not
    tried again (the calls for the target are the first one and one per
    page); and the places of the group keep what they held, no listener
    having written there. *)
Theorem request_failure_is_fatal ambient h layersList tr σ i t0 front e :
  tasks (update ambient h layersList) !! i = Some t0 →
  run tr (update ambient h layersList) = Some σ →
  delivered i tr = (Resolve <$> front) ++ [Reject e] →
  Forall (λ p, truthy (NextMarker p) = true) front →
  ∃ t, tasks σ !! i = Some t
       ∧ settled t = Rejected e
       ∧ (∃ e', promise σ = Threw e')
       ∧ length (filter (λ q, q.1 = layerName t0) (requests σ)) = S (length front)
       ∧ ∀ l, l ∈ listeners t0 →
           read (heap σ) l = read h l ∧ ∀ w, w ∈ writes σ → w.1 ≠ l.
Proof.
  intros Hi Hrun Hdel Hfront.
  pose proof (run_invariant _ _ _ _ _ Hrun) as I.
  pose proof (run_task _ _ _ i t0 Hrun Hi) as Ht. rewrite Hdel in Ht.
  pose proof (run_requests ambient h layersList tr _ _ i t0
                (update_invariant ambient h layersList) Hrun Hi) as Hreq.
  rewrite (update_requests _ _ _ _ _ Hi), Hdel in Hreq.
  assert (Hs0 : settled t0 = Awaiting) by (by rewrite (update_fresh _ _ _ _ _ Hi)).
  destruct (feed_rejected t0 front e Hs0 Hfront) as (Hs & Hq & _).
  destruct (feed_signature t0 ((Resolve <$> front) ++ [Reject e])) as [_ Hls].
  eexists. split; [exact Ht|]. split_and!.
  - done.
  - by eapply (inv_rejected I).
  - rewrite Hreq, Hq. simpl. by rewrite length_fmap.
  - intros l Hl. eapply unfulfilled_untouched; [done|exact Ht|by rewrite Hs|by rewrite Hls].
Qed.

Lemma request_failure_is_fatal_witness :
  ∃ t, tasks two_layers_failed !! 0 = Some t
       ∧ settled t = Rejected (ProviderError "AccessDenied")
       ∧ (∃ e', promise two_layers_failed = Threw e')
       ∧ length (filter (λ q, q.1 = layerName foo_task) (requests two_layers_failed))
         = S (length (@nil Result))
       ∧ ∀ l, l ∈ listeners foo_task →
           read (heap two_layers_failed) l = read two_layers l
           ∧ ∀ w, w ∈ writes two_layers_failed → w.1 ≠ l.
Proof.
  apply (request_failure_is_fatal "us-east-1" two_layers [VArr 0] foo_fails
           two_layers_failed 0 foo_task [] (ProviderError "AccessDenied")).
  - vm_compute; reflexivity.
  - vm_compute; reflexivity.
  - vm_compute; reflexivity.
  - constructor.
Defined.

(** ** How [update] settles *)

Lemma run_no_tasks tr σ σ' : run tr σ = Some σ' → tasks σ = [] → σ' = σ.
Proof.
  destruct tr as [|[j r] tr]; simpl.
  - by intros [= <-].
  - intros Hrun Hnil. destruct (deliver j r σ) as [σ1|] eqn:Hd; [|done].
    apply deliver_inv in Hd as (tj & Hj & _). by rewrite Hnil in Hj.
Qed.

Lemma update_threw ambient h layersList e :
  promise (update ambient h layersList) = Threw e → e = thrown.
Proof.
  pose proof (update_spec ambient h layersList) as Hu.
  destruct (group ambient h layersList (Grouping [] [])) as [g [e0|]] eqn:Hg.
  - rewrite Hu. apply group_spec in Hg as (_ & _ & -> & _). by intros [= <-].
  - cbn zeta in Hu. rewrite Hu. cbn [promise]. by destruct (entries _).
Qed.

(** Once no request is in flight [update] has settled.  It has returned
    exactly when the grouping loop did not throw and every [processLayers]
    is fulfilled; otherwise it has thrown, and what it threw is the error of
    a rejected [processLayers], or that of the grouping loop when it
    launched none. *)
Theorem update_settles ambient h layersList tr σ :
  run tr (update ambient h layersList) = Some σ →
  quiescent σ →
  (promise σ = Returned ∨ ∃ e, promise σ = Threw e)
  ∧ (promise σ = Returned ↔
       (∀ e, promise (update ambient h layersList) ≠ Threw e)
       ∧ ∀ t, t ∈ tasks σ → settled t = Fulfilled)
  ∧ (∀ e, promise σ = Threw e →
       (tasks σ = [] ∧ e = thrown) ∨ ∃ t, t ∈ tasks σ ∧ settled t = Rejected e).
Proof.
  intros Hrun Hq. pose proof (run_invariant _ _ _ _ _ Hrun) as I.
  assert (Hnp : promise σ ≠ Pending).
  { intros Hp. destruct (inv_pending I Hp) as (i & t & Hi & Hs).
    apply (Hq t); [by eapply list_elem_of_lookup_2|done]. }
  assert (Hsame : tasks σ = [] → σ = update ambient h layersList).
  { intros Hnil. apply (run_no_tasks _ _ _ Hrun).
    apply length_zero_iff_nil. rewrite <- (run_length _ _ _ Hrun). by rewrite Hnil. }
  assert (Hthrew : ∀ e, promise σ = Threw e →
            (tasks σ = [] ∧ e = thrown) ∨ ∃ t, t ∈ tasks σ ∧ settled t = Rejected e).
  { intros e He. destruct (inv_threw I e He) as [Hnil|(i & t & Hi & Hs)].
    - left. split; [done|]. rewrite (Hsame Hnil) in He. by eapply update_threw.
    - right. exists t. split; [by eapply list_elem_of_lookup_2|done]. }
  split; [|split; [split|done]].
  - destruct (promise σ); [done|by left|right; by eexists].
  - intros Hret. split.
    + intros e Hp0. pose proof (run_threw _ _ _ _ Hp0 Hrun). congruence.
    + intros t [i Hi]%list_elem_of_lookup. by eapply (inv_returned I).
  - intros [Hno Hall]. destruct (promise σ) as [| |e] eqn:Hp; [done..|].
    destruct (Hthrew e eq_refl) as [[Hnil ->]|(t & Ht & Hs)].
    + rewrite (Hsame Hnil) in Hp. by destruct (Hno thrown).
    + rewrite (Hall t Ht) in Hs. done.
Qed.

Lemma update_settles_witness :
  (promise two_layers_after = Returned ∨ ∃ e, promise two_layers_after = Threw e)
  ∧ (promise two_layers_after = Returned ↔
       (∀ e, promise (update "us-east-1" two_layers [VArr 0]) ≠ Threw e)
       ∧ ∀ t, t ∈ tasks two_layers_after → settled t = Fulfilled)
  ∧ (∀ e, promise two_layers_after = Threw e →
       (tasks two_layers_after = [] ∧ e = thrown)
       ∨ ∃ t, t ∈ tasks two_layers_after ∧ settled t = Rejected e).
Proof.
  apply (update_settles "us-east-1" two_layers [VArr 0] foo_then_bar).
  - vm_compute; reflexivity.
  - intros t Ht. vm_compute in Ht.
    repeat (apply elem_of_cons in Ht as [->|Ht]; [done|]). by apply elem_of_nil in Ht.
Defined.

(** ** A second pass *)

Lemma update_covers_unless_thrown ambient h layersList l k :
  (∀ e, promise (update ambient h layersList) ≠ Threw e) →
  refers ambient h layersList l k →
  ∃ i t, tasks (update ambient h layersList) !! i = Some t
         ∧ layerName t = k ∧ l ∈ listeners t.
Proof.
  intros Hno Hr. pose proof (update_spec ambient h layersList) as Hu.
  destruct (group ambient h layersList (Grouping [] [])) as [g [e|]] eqn:Hg.
  - rewrite Hu in Hno. by destruct (Hno e).
  - cbn zeta in Hu. rewrite Hu. apply group_spec in Hg as (_ & _ & Hholds).
    destruct (proj2 (Hholds k l) (or_intror Hr)) as (ls & Hin & Hl).
    rewrite <- entries_Permutation in Hin.
    apply list_elem_of_lookup in Hin as [i Hi]. simpl.
    exists i, (fresh (k, ls)). split_and!; [|done..].
    by rewrite list_lookup_fmap, Hi.
Qed.

Lemma update_without_target ambient h layersList :
  (∀ l k, ¬ refers ambient h layersList l k) →
  promise (update ambient h layersList) = Returned
  ∧ tasks (update ambient h layersList) = []
  ∧ requests (update ambient h layersList) = []
  ∧ writes (update ambient h layersList) = [].
Proof.
  intros Hnone.
  assert (Hnot : ∀ a v, VArr a ∈ layersList → v ∈ array h a → target ambient v = None).
  { intros a v Ha [j Hj]%list_elem_of_lookup.
    destruct (target ambient v) as [k|] eqn:Hk; [|done].
    destruct (Hnone (Listener a j) k). split; [done|]. exists v. by rewrite read_array. }
  destruct (group_no_target ambient h layersList (Grouping [] []) Hnot) as [said Hg].
  pose proof (update_spec ambient h layersList) as Hu. rewrite Hg in Hu.
  cbn in Hu. by rewrite Hu.
Qed.

(** After a pass that returned, a second pass over the same arrays finds
    nothing to resolve, provided none of the ARNs the provider gave is
    itself a placeholder reference: it returns without a call to the
    provider and without a write.  (The two hooks may walk the same arrays,
    one after the other.) *)
Theorem second_pass_is_a_no_op ambient h layersList tr σ :
  run tr (update ambient h layersList) = Some σ →
  promise σ = Returned →
  (∀ t v, t ∈ tasks σ → latestVersion t = Some v → reg_exec (LayerVersionArn v) = None) →
  promise (update ambient (heap σ) layersList) = Returned
  ∧ tasks (update ambient (heap σ) layersList) = []
  ∧ requests (update ambient (heap σ) layersList) = []
  ∧ writes (update ambient (heap σ) layersList) = []
  ∧ heap (update ambient (heap σ) layersList) = heap σ.
Proof.
  intros Hrun Hret Harn. pose proof (run_invariant _ _ _ _ _ Hrun) as I.
  assert (Hno : ∀ e, promise (update ambient h layersList) ≠ Threw e).
  { intros e Hp0. pose proof (run_threw _ _ _ _ Hp0 Hrun). congruence. }
  assert (Hnone : ∀ l k, ¬ refers ambient (heap σ) layersList l k).
  { intros l k [Hin (v & Hv & Hk)].
    destruct (proj1 (inv_shape I l)) as [v0 Hv0]; [by eexists|].
    destruct (target ambient v0) as [k0|] eqn:Hk0.
    - destruct (update_covers_unless_thrown ambient h layersList l k0 Hno)
        as (i & t0 & Hi0 & _ & Hl).
      { split; [done|]. by exists v0. }
      pose proof (run_task _ _ _ i t0 Hrun Hi0) as Hi.
      destruct (feed_signature t0 (delivered i tr)) as [_ Hls].
      set (t := (feed t0 (delivered i tr)).1) in *.
      pose proof (inv_returned I Hret i t Hi) as Hs.
      destruct (inv_fulfilled I i t Hi Hs) as (w & Hw & Hread).
      rewrite (Hread l) in Hv by (by rewrite Hls). injection Hv as <-.
      apply target_inv in Hk as (s & g & [= <-] & Hg & _).
      rewrite (Harn t w) in Hg; [done| |done]. by eapply list_elem_of_lookup_2.
    - destruct (no_target_untouched _ _ _ _ _ _ I Hv0 Hk0) as [Hsame _]. congruence. }
  destruct (update_without_target ambient (heap σ) layersList Hnone) as (H1 & H2 & H3 & H4).
  split_and!; [done..|]. apply update_heap.
Qed.

Lemma second_pass_is_a_no_op_witness :
  promise (update "us-east-1" (heap one_layer_after) [VArr 0; VArr 0]) = Returned
  ∧ tasks (update "us-east-1" (heap one_layer_after) [VArr 0; VArr 0]) = []
  ∧ requests (update "us-east-1" (heap one_layer_after) [VArr 0; VArr 0]) = []
  ∧ writes (update "us-east-1" (heap one_layer_after) [VArr 0; VArr 0]) = []
  ∧ heap (update "us-east-1" (heap one_layer_after) [VArr 0; VArr 0]) = heap one_layer_after.
Proof.
  apply (second_pass_is_a_no_op "us-east-1" one_layer [VArr 0; VArr 0] foo_resolved).
  - vm_compute; reflexivity.
  - vm_compute; reflexivity.
  - intros t v Ht. vm_compute in Ht.
    apply elem_of_cons in Ht as [->|Ht]; [|by apply elem_of_nil in Ht].
    intros [= <-]. vm_compute; reflexivity.
Defined.

(** ** Arrays the pass is not given *)

(** An array that is not an entry of [layersList] is left as it is, even
    when it holds placeholder references: the pass writes only into the
    arrays it was handed. *)
Theorem unlisted_array_is_untouched ambient h layersList tr σ a :
  VArr a ∉ layersList →
  run tr (update ambient h layersList) = Some σ →
  array (heap σ) a = array h a ∧ ∀ w, w ∈ writes σ → layers w.1 ≠ a.
Proof.
  intros Hnot Hrun. pose proof (run_invariant _ _ _ _ _ Hrun) as I.
  assert (Hnone : ∀ i t l, tasks σ !! i = Some t → l ∈ listeners t → layers l ≠ a).
  { intros i t l Hi Hl <-. by destruct (inv_refers I i t l Hi Hl) as [Hin _]. }
  split.
  - apply list_eq. intros j. rewrite <- !(read_array _ (Listener a j)).
    apply (inv_untouched I). intros i t Hi _ Hl. by apply (Hnone i t _ Hi Hl).
  - intros w Hw. destruct (inv_writes I w Hw) as (i & t & Hi & _ & Hl).
    by apply (Hnone i t).
Qed.

Lemma unlisted_array_is_untouched_witness :
  array (heap two_arrays_after) 1 = array two_arrays 1
  ∧ ∀ w, w ∈ writes two_arrays_after → layers w.1 ≠ 1.
Proof.
  apply (unlisted_array_is_untouched "us-east-1" two_arrays [VArr 0; VUndefined]
           foo_resolved).
  - intros Hin. repeat (apply elem_of_cons in Hin as [[=]|Hin]). by apply elem_of_nil in Hin.
  - vm_compute; reflexivity.
Defined.

(** ** Listing the arrays *)

Lemma Object_values_Permutation {A} (o : list (string * A)) : Object_values o ≡ₚ o.*2.
Proof.
  unfold Object_values. rewrite merge_sort_Permutation.
  induction o as [|e o IH]; [done|].
  rewrite filter_cons. cbn [omap list_omap].
  destruct (decide (array_index e.1 = None)) as [E|E].
  - rewrite E. cbn [mbind option_bind]. rewrite !fmap_cons.
    rewrite <- Permutation_middle. by rewrite IH.
  - destruct (array_index e.1) as [n|]; [|done].
    cbn [mbind option_bind]. rewrite !fmap_cons. simpl. by rewrite IH.
Qed.

Lemma mapM_total {A B} (f : A → option B) (d : B) (l : list A) :
  (∀ x, x ∈ l → is_Some (f x)) → mapM f l = Some ((λ x, default d (f x)) <$> l).
Proof.
  intros Hall. apply mapM_Some. induction l as [|x l IH]; [constructor|].
  rewrite fmap_cons. constructor.
  - destruct (Hall x) as [y Hy]; [left|]. by rewrite Hy.
  - apply IH. intros y Hy. apply Hall. by right.
Qed.

Lemma prop_None t k : prop t k = None ↔ nullish t = true.
Proof. by destruct t. Qed.

Lemma layers_of_None f : layers_of f = None ↔ nullish f = true.
Proof. unfold layers_of. rewrite <- (prop_None f "layers"). by destruct (prop f "layers"). Qed.

Lemma Layers_of_None r : Layers_of r = None ↔ nullish r = true.
Proof.
  unfold Layers_of. rewrite <- (prop_None r "Properties").
  destruct (prop r "Properties") as [p|]; simpl; [|done].
  split; [|done]. destruct (nullish p) eqn:Hp; [done|].
  destruct (prop p "Layers") eqn:E; [done|]. apply prop_None in E. congruence.
Qed.

Lemma to_value_array t a : to_value t = VArr a ↔ t = TArr a.
Proof. destruct t; simpl; split; congruence. Qed.

Lemma values_nullish {A} (o : list (string * A)) (P : A → Prop) :
  (∃ x, x ∈ Object_values o ∧ P x) ↔ ∃ kx, kx ∈ o ∧ P kx.2.
Proof.
  split.
  - intros (x & Hx & HP). rewrite Object_values_Permutation in Hx.
    apply list_elem_of_fmap in Hx as (kx & -> & Hkx). by exists kx.
  - intros (kx & Hkx & HP). exists kx.2. split; [|done].
    rewrite Object_values_Permutation. apply list_elem_of_fmap. by exists kx.
Qed.

Lemma listSLS_inv functions ls :
  listSLSLayerAssociations functions = Some ls →
  ls ≡ₚ (λ kf, default VUndefined (layers_of kf.2)) <$> default [] functions.
Proof.
  unfold listSLSLayerAssociations. intros Hls.
  rewrite (mapM_total _ VUndefined) in Hls.
  - injection Hls as <-. rewrite Object_values_Permutation.
    by rewrite <- list_fmap_compose.
  - apply Forall_forall. change (Forall (is_Some ∘ layers_of) (Object_values (default [] functions))).
    apply mapM_is_Some. by rewrite Hls.
Qed.

Lemma listSLS_arrays functions ls a :
  listSLSLayerAssociations functions = Some ls →
  VArr a ∈ ls ↔ ∃ kf, kf ∈ default [] functions ∧ prop kf.2 "layers" = Some (TArr a).
Proof.
  intros Hls. rewrite (listSLS_inv _ _ Hls), list_elem_of_fmap. unfold layers_of.
  split.
  - intros (kf & Hkf & Hin). exists kf. split; [done|].
    destruct (prop kf.2 "layers") as [t|]; simpl in Hkf; [|done].
    symmetry in Hkf. by apply to_value_array in Hkf as ->.
  - intros (kf & Hin & Hkf). exists kf. split; [|done]. by rewrite Hkf.
Qed.

(** [listSLSLayerAssociations] throws exactly when some function of the
    service is [undefined] or [null]; an absent service, or one without
    functions, gives the empty list.  Otherwise it gives one entry for each
    function, its [layers] or [undefined] when it has none, so that the
    arrays among the entries are exactly the [layers] arrays of the
    functions. *)
Theorem listSLSLayerAssociations_spec functions :
  listSLSLayerAssociations None = Some []
  ∧ (listSLSLayerAssociations functions = None
     ↔ ∃ kf, kf ∈ default [] functions ∧ nullish kf.2 = true)
  ∧ ∀ ls, listSLSLayerAssociations functions = Some ls →
      ls ≡ₚ (λ kf, default VUndefined (layers_of kf.2)) <$> default [] functions
      ∧ ∀ a, VArr a ∈ ls
             ↔ ∃ kf, kf ∈ default [] functions ∧ prop kf.2 "layers" = Some (TArr a).
Proof.
  split; [done|]. split.
  - unfold listSLSLayerAssociations. rewrite mapM_None, Exists_exists.
    rewrite (values_nullish _ (λ f, layers_of f = None)).
    by setoid_rewrite layers_of_None.
  - intros ls Hls. split; [by apply listSLS_inv|]. intros a. by apply listSLS_arrays.
Qed.

Lemma filter_functions_total rs :
  (∀ r, r ∈ rs → nullish r = false) →
  filter_functions rs = Some (filter (λ r, is_function r = true) rs).
Proof.
  induction rs as [|r rs IH]; intros Hall; [done|]. cbn [filter_functions].
  assert (Hr : nullish r = false) by (apply Hall; left).
  rewrite IH by (intros r' Hr'; apply Hall; by right).
  rewrite filter_cons.
  destruct (prop r "Type") as [ty|] eqn:Hty; [|apply prop_None in Hty; congruence].
  cbn [mbind option_bind].
  assert (Hif : is_function r = strict_eq (to_value ty) (VStr Lambda_Function))
    by (unfold is_function; by rewrite Hty).
  rewrite Hif. by destruct (strict_eq (to_value ty) (VStr Lambda_Function)).
Qed.

Lemma filter_functions_None rs :
  filter_functions rs = None ↔ ∃ r, r ∈ rs ∧ nullish r = true.
Proof.
  induction rs as [|r rs IH]; simpl.
  - split; [done|]. by intros (? & ?%elem_of_nil & _).
  - destruct (prop r "Type") as [ty|] eqn:Hty; simpl.
    + destruct (filter_functions rs) as [kept|]; simpl.
      * split; [done|]. intros (r' & [->|Hr']%elem_of_cons & Hn).
        -- pose proof (proj2 (prop_None r "Type") Hn). congruence.
        -- assert (Some kept = None) by (apply IH; by exists r'). done.
      * split; [|done]. intros _. destruct (proj1 IH eq_refl) as (r' & Hr' & Hn).
        exists r'. split; [by right|done].
    + split; [|done]. intros _. exists r. split; [left|]. by apply prop_None in Hty.
Qed.

Lemma listCFN_inv Resources ls :
  listCFNLayerAssociations Resources = Some ls →
  (∀ kr, kr ∈ Resources → nullish kr.2 = false)
  ∧ ls ≡ₚ (λ r, default VUndefined (Layers_of r))
            <$> filter (λ r, is_function r = true) Resources.*2.
Proof.
  unfold listCFNLayerAssociations. intros Hls.
  destruct (filter_functions (Object_values Resources)) as [fs|] eqn:Hfs; [|done].
  simpl in Hls.
  assert (Hnn : ∀ kr, kr ∈ Resources → nullish kr.2 = false).
  { intros kr Hkr. destruct (nullish kr.2) eqn:Hn; [|done].
    assert (filter_functions (Object_values Resources) = None); [|congruence].
    apply filter_functions_None. apply (values_nullish _ (λ r, nullish r = true)).
    by exists kr. }
  split; [done|].
  rewrite filter_functions_total in Hfs.
  - injection Hfs as <-. rewrite (mapM_total _ VUndefined) in Hls.
    + injection Hls as <-. by rewrite Object_values_Permutation.
    + intros r [_ Hr]%list_elem_of_filter.
      destruct (Layers_of r) eqn:E; [done|]. apply Layers_of_None in E.
      rewrite Object_values_Permutation in Hr.
      apply list_elem_of_fmap in Hr as (kr & -> & Hkr). rewrite (Hnn kr Hkr) in E. done.
  - intros r Hr. rewrite Object_values_Permutation in Hr.
    apply list_elem_of_fmap in Hr as (kr & -> & Hkr). by apply Hnn.
Qed.

Lemma listCFN_arrays Resources ls a :
  listCFNLayerAssociations Resources = Some ls →
  VArr a ∈ ls ↔ ∃ kr, kr ∈ Resources ∧ is_function kr.2 = true
                      ∧ Layers_of kr.2 = Some (VArr a).
Proof.
  intros Hls. destruct (listCFN_inv _ _ Hls) as [Hnn Hperm].
  rewrite Hperm, list_elem_of_fmap. split.
  - intros (r & Hr & [Hf (kr & -> & Hkr)%list_elem_of_fmap]%list_elem_of_filter).
    exists kr. split_and!; [done..|].
    destruct (Layers_of kr.2); simpl in Hr; congruence.
  - intros (kr & Hkr & Hf & HL). exists kr.2. split; [by rewrite HL|].
    apply list_elem_of_filter. split; [done|]. apply list_elem_of_fmap. by exists kr.
Qed.

(** [listCFNLayerAssociations] throws exactly when some resource of the
    template is [undefined] or [null].  Otherwise it gives one entry for
    each resource of type [AWS::Lambda::Function], and none for the others:
    the [Layers] of its [Properties], or [undefined] when it has no
    [Properties] or no [Layers].  The arrays among the entries are exactly
    the [Layers] arrays of the function resources. *)
Theorem listCFNLayerAssociations_spec Resources :
  (listCFNLayerAssociations Resources = None
   ↔ ∃ kr, kr ∈ Resources ∧ nullish kr.2 = true)
  ∧ ∀ ls, listCFNLayerAssociations Resources = Some ls →
      ls ≡ₚ (λ r, default VUndefined (Layers_of r))
              <$> filter (λ r, is_function r = true) Resources.*2
      ∧ ∀ a, VArr a ∈ ls
             ↔ ∃ kr, kr ∈ Resources ∧ is_function kr.2 = true
                     ∧ Layers_of kr.2 = Some (VArr a).
Proof.
  split.
  - split.
    + intros Hnone. unfold listCFNLayerAssociations in Hnone.
      destruct (filter_functions (Object_values Resources)) as [fs|] eqn:Hfs.
      * exfalso. simpl in Hnone.
        assert (Hall : ∀ r', r' ∈ Object_values Resources → nullish r' = false).
        { intros r' Hr'. destruct (nullish r') eqn:E; [|done].
          assert (filter_functions (Object_values Resources) = None); [|congruence].
          apply filter_functions_None. by exists r'. }
        rewrite (filter_functions_total _ Hall) in Hfs. injection Hfs as <-.
        apply mapM_None, Exists_exists in Hnone as (r & Hr & Hn).
        apply Layers_of_None in Hn.
        apply list_elem_of_filter in Hr as [_ Hr]. rewrite (Hall r Hr) in Hn. done.
      * apply filter_functions_None in Hfs.
        by apply (values_nullish _ (λ r, nullish r = true)).
    + intros Hex. apply (values_nullish _ (λ r, nullish r = true)) in Hex.
      apply filter_functions_None in Hex. unfold listCFNLayerAssociations. by rewrite Hex.
  - intros ls Hls. split; [by apply listCFN_inv|]. intros a. by apply listCFN_arrays.
Qed.

Lemma listSLSLayerAssociations_spec_witness :
  listSLSLayerAssociations (Some some_functions) = Some [VUndefined; VArr 0]
  ∧ listSLSLayerAssociations (Some null_function) = None.
Proof.
  split; [reflexivity|].
  apply (proj1 (proj2 (listSLSLayerAssociations_spec (Some null_function)))).
  exists ("broken", TNull). split; [|done]. right. left.
Defined.

Lemma listCFNLayerAssociations_spec_witness :
  listCFNLayerAssociations some_resources = Some [VArr 0; VUndefined]
  ∧ ∀ a, VArr a ∈ [VArr 0; VUndefined]
         ↔ ∃ kr, kr ∈ some_resources ∧ is_function kr.2 = true
                 ∧ Layers_of kr.2 = Some (VArr a).
Proof.
  split; [reflexivity|].
  apply (proj2 (listCFNLayerAssociations_spec some_resources) [VArr 0; VUndefined]).
  reflexivity.
Defined.

(** ** The hooks *)






(** The hook [updateCFNLayerVersion] rewrites only the [Layers] of the
    resources of type [AWS::Lambda::Function]: an array that is the
    [Layers] of no such resource is the same after every run, even when a
    resource of another type holds it and it is full of placeholder
    references. *)
Theorem updateCFNLayerVersion_only_functions ambient h Resources σ0 tr σ a :
  updateCFNLayerVersion ambient h Resources = Some σ0 →
  run tr σ0 = Some σ →
  (∀ kr, kr ∈ Resources → is_function kr.2 = true → Layers_of kr.2 ≠ Some (VArr a)) →
  array (heap σ) a = array h a ∧ ∀ w, w ∈ writes σ → layers w.1 ≠ a.
Proof.
  unfold updateCFNLayerVersion. intros Hhook Hrun Hnot.
  destruct (listCFNLayerAssociations Resources) as [ls|] eqn:Hls; [|done].
  injection Hhook as <-. pose proof (run_invariant _ _ _ _ _ Hrun) as I.
  assert (Hout : VArr a ∉ ls).
  { intros Hin. apply (listCFN_arrays _ _ _ Hls) in Hin as (kr & Hkr & Hf & HL).
    by apply (Hnot kr). }
  assert (Hnone : ∀ i t l, tasks σ !! i = Some t → l ∈ listeners t → layers l ≠ a).
  { intros i t l Hi Hl <-. by destruct (inv_refers I i t l Hi Hl) as [Hin _]. }
  split.
  - apply list_eq. intros j. rewrite <- !(read_array _ (Listener a j)).
    apply (inv_untouched I). intros i t Hi _ Hl. by apply (Hnone i t _ Hi Hl).
  - intros w Hw. destruct (inv_writes I w Hw) as (i & t & Hi & _ & Hl).
    by apply (Hnone i t).
Qed.

Lemma updateCFNLayerVersion_only_functions_witness :
  array (heap two_arrays_after) 1 = array two_arrays 1
  ∧ ∀ w, w ∈ writes two_arrays_after → layers w.1 ≠ 1.
Proof.
  apply (updateCFNLayerVersion_only_functions "us-east-1" two_arrays some_resources
           (update "us-east-1" two_arrays [VArr 0; VUndefined]) foo_resolved).
  - vm_compute; reflexivity.
  - vm_compute; reflexivity.
  - intros kr Hkr Hf.
    repeat (apply elem_of_cons in Hkr as [->|Hkr]; [by vm_compute|]).
    by apply elem_of_nil in Hkr.
Defined.



(** ** The debug sink *)

Lemma tagged_debug first rest : tagged (debug first rest).
Proof. by exists (" " +:+ first). Qed.

Lemma extractLayerName_tagged ambient layer d :
  d ∈ (extractLayerName ambient layer).2 → tagged d.
Proof.
  unfold extractLayerName. destruct (negb (truthy layer)); [by intros ?%elem_of_nil|].
  destruct layer as [| |b|z| |s|a|o];
    try (intros ->%list_elem_of_singleton; apply tagged_debug).
  destruct (reg_exec s); simpl.
  - by intros ?%elem_of_nil.
  - intros ->%list_elem_of_singleton. apply tagged_debug.
Qed.

Lemma resume_tagged t r d : d ∈ logged (processLayers_resume t r).2 → tagged d.
Proof.
  destruct r as [result|e]; simpl; [|by intros ?%elem_of_nil].
  destruct (truthy (NextMarker result)); simpl.
  - intros ->%list_elem_of_singleton. apply tagged_debug.
  - destruct (fold_left pick _ _); simpl.
    + intros [->|Hd%list_elem_of_singleton]%elem_of_cons; [|subst d]; apply tagged_debug.
    + intros ->%list_elem_of_singleton. apply tagged_debug.
Qed.

Lemma update_tagged ambient h layersList d :
  d ∈ debugLog (update ambient h layersList) → tagged d.
Proof.
  pose proof (update_spec ambient h layersList) as Hu.
  destruct (group ambient h layersList (Grouping [] [])) as [g [e|]] eqn:Hg;
    cbn zeta in Hu; rewrite Hu; cbn [debugLog];
    apply group_spec in Hg as (_ & Hnotes & _).
  - intros [?%elem_of_nil|(a & v & _ & _ & Hd)]%Hnotes; [done|].
    by eapply extractLayerName_tagged.
  - intros [[?%elem_of_nil|(a & v & _ & _ & Hd)]%Hnotes|Hd]%elem_of_app; [done| |].
    + by eapply extractLayerName_tagged.
    + apply list_elem_of_fmap in Hd as (e & -> & _). apply tagged_debug.
Qed.

(** Every line the plugin writes to the debug sink starts with the tag
    [[serverless-latest-layer-version]]: [debug] puts it in front of
    whatever it is called with, a string first or not, and every line of
    every run of [update] comes from [debug]. *)
Theorem every_debug_line_is_tagged ambient h layersList tr σ d :
  run tr (update ambient h layersList) = Some σ →
  d ∈ debugLog σ →
  tagged d
  ∧ (∀ args, tagged (debug_call args))
  ∧ ∀ first rest, debug_call (DValue (VStr first) :: rest) = debug first rest.
Proof.
  intros Hrun Hd. split; [|split; [|done]].
  - revert Hrun Hd.
    assert (H0 : ∀ d', d' ∈ debugLog (update ambient h layersList) → tagged d')
      by (intros d'; apply update_tagged).
    revert H0. generalize (update ambient h layersList).
    induction tr as [|[i r] tr IH]; intros σ0 H0; simpl.
    + intros [= <-]. apply H0.
    + destruct (deliver i r σ0) as [σ1|] eqn:Hdel; simpl; [|done].
      apply IH. apply deliver_inv in Hdel as (t & _ & _ & ->). cbn [debugLog].
      intros d' [?|?%resume_tagged]%elem_of_app; [by apply H0|done].
  - intros args. destruct args as [|[[| | | | |first| |]| |] rest];
      try (by exists ""). by exists (" " +:+ first).
Qed.

Lemma every_debug_line_is_tagged_witness :
  tagged (debug "Fetching versions for" [DValue (VStr foo_target)])
  ∧ (∀ args, tagged (debug_call args))
  ∧ ∀ first rest, debug_call (DValue (VStr first) :: rest) = debug first rest.
Proof.
  apply (every_debug_line_is_tagged "us-east-1" two_layers [VArr 0] foo_then_bar
           two_layers_after).
  - vm_compute; reflexivity.
  - vm_compute. right. left.
Defined.

(** ** Pages without end *)

(** [processLayers] puts no bound on the number of pages: as long as every
    page delivered to it carries a marker it is still awaiting, it has
    called the provider once more than it got pages, it has written
    nothing, and [update] has not returned. *)
Theorem marked_pages_never_settle ambient h layersList tr σ i t0 pages :
  tasks (update ambient h layersList) !! i = Some t0 →
  run tr (update ambient h layersList) = Some σ →
  delivered i tr = Resolve <$> pages →
  Forall (λ p, truthy (NextMarker p) = true) pages →
  ∃ t, tasks σ !! i = Some t
       ∧ settled t = Awaiting
       ∧ promise σ ≠ Returned
       ∧ length (filter (λ q, q.1 = layerName t0) (requests σ)) = S (length pages)
       ∧ ∀ l, l ∈ listeners t0 →
           read (heap σ) l = read h l ∧ ∀ w, w ∈ writes σ → w.1 ≠ l.
Proof.
  intros Hi Hrun Hdel Hpages.
  pose proof (run_invariant _ _ _ _ _ Hrun) as I.
  pose proof (run_task _ _ _ i t0 Hrun Hi) as Ht. rewrite Hdel in Ht.
  pose proof (run_requests ambient h layersList tr _ _ i t0
                (update_invariant ambient h layersList) Hrun Hi) as Hreq.
  rewrite (update_requests _ _ _ _ _ Hi), Hdel in Hreq.
  assert (Hs0 : settled t0 = Awaiting) by (by rewrite (update_fresh _ _ _ _ _ Hi)).
  destruct (feed_marked t0 pages Hs0 Hpages) as (Hs & _ & Hq & _).
  destruct (feed_signature t0 (Resolve <$> pages)) as [_ Hls].
  eexists. split; [exact Ht|]. split_and!.
  - done.
  - intros Hret. pose proof (inv_returned I Hret i _ Ht). congruence.
  - rewrite Hreq, Hq. simpl. by rewrite length_fmap.
  - intros l Hl. eapply unfulfilled_untouched; [done|exact Ht|by rewrite Hs|by rewrite Hls].
Qed.

Lemma marked_pages_never_settle_witness :
  ∃ t, tasks two_layers_paging !! 0 = Some t
       ∧ settled t = Awaiting
       ∧ promise two_layers_paging ≠ Returned
       ∧ length (filter (λ q, q.1 = layerName foo_task) (requests two_layers_paging))
         = S (length [marked_page])
       ∧ ∀ l, l ∈ listeners foo_task →
           read (heap two_layers_paging) l = read two_layers l
           ∧ ∀ w, w ∈ writes two_layers_paging → w.1 ≠ l.
Proof.
  apply (marked_pages_never_settle "us-east-1" two_layers [VArr 0]
           [(0, Resolve marked_page)] two_layers_paging 0 foo_task [marked_page]).
  - vm_compute; reflexivity.
  - vm_compute; reflexivity.
  - reflexivity.
  - by repeat constructor.
Defined.
